(** * downloadOneDriveFolder.py: a shallow embedding and its properties

    The program searches OneDrive for a folder by name and webUrl and
    mirrors its subtree on the local disk.  The Graph SDK, the identity
    library and the operating system are collaborators: their answers are
    inputs of the model, their calls and the local file system are the
    state the program threads through. *)

From Stdlib Require Import ZArith.
From stdpp Require Import base strings list gmap fin_maps.

Local Open Scope string_scope.
Local Open Scope Z_scope.
Local Open Scope list_scope.

(* ===================================================================== *)
(** ** Python values *)
(* ===================================================================== *)

(** File content as returned by [content.get()]. *)
Definition bytes := list Byte.byte.

(** An [Optional[str]] attribute: [None] or a string. *)
Definition truthy (o : option string) : bool :=
  match o with
  | Some s => negb (String.eqb s "")
  | None => false
  end.

(** What an f-string or [print] shows for an [Optional[str]]. *)
Definition py_str (o : option string) : string :=
  match o with
  | Some s => s
  | None => "None"
  end.

(* ===================================================================== *)
(** ** Local paths and the local file system *)
(* ===================================================================== *)

(** A local path is the list of its components below the directory the
    process works in, on a file system that tells names apart by their
    characters and has no links.  [os.path.join p name] is modelled for
    the names [plain_name] accepts, where it names the entry [name] of
    [p]: one more component.  What is proved about the place a joined path
    names assumes that the listings hold such names only. *)
Abbreviation path := (list string).

Definition path_join (directory : path) (name : string) : path :=
  directory ++ [name].

(** A name holds the separator [/] (character 47) or NUL. *)
Fixpoint has_separator (s : string) : bool :=
  match s with
  | EmptyString => false
  | String a s' =>
      Ascii.eqb a (Ascii.ascii_of_nat 47) || Ascii.eqb a Ascii.zero
      || has_separator s'
  end.

(** The names for which [os.path.join] does append one component: not
    empty, not [.] or [..], without separator or NUL.  For any other name
    the joined string names another place than [path_join] says. *)
Definition plain_name (n : string) : bool :=
  negb (String.eqb n "") && negb (String.eqb n ".")
  && negb (String.eqb n "..") && negb (has_separator n).

Definition parent (p : path) : path := removelast p.

Definition render (p : path) : string := String.concat "/" p.

Inductive node :=
| Dir
| File (content : bytes).

Abbreviation filesystem := (gmap path node).

(** The root [[]] is a directory of every file system. *)
Definition lookup_node (fs : filesystem) (p : path) : option node :=
  match p with
  | [] => Some Dir
  | _ => fs !! p
  end.

Definition is_dir (fs : filesystem) (p : path) : bool :=
  match lookup_node fs p with
  | Some Dir => true
  | _ => false
  end.

(* ===================================================================== *)
(** ** Exceptions *)
(* ===================================================================== *)

(** Subclasses of [Exception] the collaborators raise. *)
Inductive exn :=
| ODataError (msg : string)
| ClientAuthenticationError (msg : string)
| FileNotFoundError (p : path)
| NotADirectoryError (p : path)
| IsADirectoryError (p : path)
| FileExistsError (p : path).

(** [str(e)]. *)
Definition str (e : exn) : string :=
  match e with
  | ODataError msg => msg
  | ClientAuthenticationError msg => msg
  | FileNotFoundError p =>
      "[Errno 2] No such file or directory: '" +:+ render p +:+ "'"
  | NotADirectoryError p =>
      "[Errno 20] Not a directory: '" +:+ render p +:+ "'"
  | IsADirectoryError p =>
      "[Errno 21] Is a directory: '" +:+ render p +:+ "'"
  | FileExistsError p =>
      "[Errno 17] File exists: '" +:+ render p +:+ "'"
  end.

Definition result (A : Type) : Type := exn + A.

(** [os.makedirs(p, exist_ok=True)] walking down from the root: existing
    directories are passed, missing ones are created, a regular file on the
    way is an error. *)
Fixpoint makedirs_from (pre : path) (rest : list string) (fs : filesystem)
  : result filesystem :=
  match rest with
  | [] => inr fs
  | s :: rest' =>
      let q := pre ++ [s] in
      match fs !! q with
      | Some Dir => makedirs_from q rest' fs
      | Some (File _) =>
          match rest' with
          | [] => inl (FileExistsError q)
          | s' :: _ => inl (NotADirectoryError (q ++ [s']))
          end
      | None => makedirs_from q rest' (<[q := Dir]> fs)
      end
  end.

Definition os_makedirs (p : path) (fs : filesystem) : result filesystem :=
  makedirs_from [] p fs.

(** Why the system cannot reach a path. *)
Inductive unreachable :=
| Missing
| NotADirectory.

(** The walk of the system through the directories [rest] below [pre]: a
    component that does not exist or is a regular file stops it. *)
Fixpoint walk (pre : path) (rest : list string) (fs : filesystem)
  : option unreachable :=
  match rest with
  | [] => None
  | s :: rest' =>
      let q := pre ++ [s] in
      match fs !! q with
      | Some Dir => walk q rest' fs
      | Some (File _) => Some NotADirectory
      | None => Some Missing
      end
  end.

(** [open(p, 'wb')] followed by [write(content)]: every directory on the
    way to [p] must exist and [p] must not be a directory; the file is
    created or truncated and holds exactly [content] afterwards.  The write
    of the delivered bytes to the opened file is taken to succeed. *)
Definition open_wb_write (p : path) (content : bytes) (fs : filesystem)
  : result filesystem :=
  match p with
  | [] => inl (IsADirectoryError p)
  | _ =>
      match walk [] (parent p) fs with
      | Some Missing => inl (FileNotFoundError p)
      | Some NotADirectory => inl (NotADirectoryError p)
      | None =>
          match fs !! p with
          | Some Dir => inl (IsADirectoryError p)
          | _ => inr (<[p := File content]> fs)
          end
      end
  end.

(* ===================================================================== *)
(** ** Remote data *)
(* ===================================================================== *)

(** Modelled from the spec: the SDK's [DriveItem] as a child listing
    delivers it (RemoteItem: identifier, name, folder or file
    discriminator).  [folder] and [file] say whether the facet is present. *)
Record DriveItem := {
  id : string;
  name : string;
  folder : bool;
  file : bool
}.

(** Modelled from the spec: the resource of a search hit, with the
    attributes [search_and_download] reads ([hit.resource.name],
    [.web_url], [.id], [.parent_reference.drive_id]); each is an
    [Optional[str]]. *)
Record SearchHit := {
  hit_name : option string;
  hit_web_url : option string;
  hit_id : option string;
  hit_drive_id : option string
}.

(** Modelled from the spec: the nested search result, a sequence of
    responses, each a sequence of hit containers, each a sequence of hits. *)
Record SearchHitsContainer := { hits : list SearchHit }.
Record SearchResponse := { hits_containers : list SearchHitsContainer }.

(** The single [SearchRequest] inside the [QueryPostRequestBody]. *)
Record SearchRequest := {
  region : string;
  query_string : string;
  from_ : Z;
  size : Z
}.

(** The [GraphServiceClient]: what each remote call answers. *)
Record GraphServiceClient := {
  search_query_post : SearchRequest → result (list SearchResponse);
  children_get : string → string → result (list DriveItem);
  content_get : string → string → result bytes
}.

(* ===================================================================== *)
(** ** The world and the monad of the program *)
(* ===================================================================== *)

Inductive event :=
| EvSearch (request : SearchRequest)
| EvChildren (drive_id item_id : string)
| EvContent (drive_id item_id : string)
| EvMakedirs (p : path)
| EvWrite (p : path) (content : bytes)
| EvPrint (msg : string)
| EvTraceback (e : exn).

Record world := {
  fs : filesystem;
  trace : list event
}.

(** The world after the events [t] were recorded. *)
Definition emit (t : list event) (w : world) : world :=
  {| fs := fs w; trace := trace w ++ t |}.

Definition log (e : event) (w : world) : world := emit [e] w.

Definition set_fs (f : filesystem) (w : world) : world :=
  {| fs := f; trace := trace w |}.

Inductive outcome (A : Type) :=
| Ok (a : A)
| Raise (e : exn)
| OutOfFuel.
Arguments Ok {A} a.
Arguments Raise {A} e.
Arguments OutOfFuel {A}.

Definition M (A : Type) : Type := world → outcome A * world.

Definition ret {A} (a : A) : M A := λ w, (Ok a, w).

Definition bind {A B} (m : M A) (k : A → M B) : M B :=
  λ w, match m w with
       | (Ok a, w') => k a w'
       | (Raise e, w') => (Raise e, w')
       | (OutOfFuel, w') => (OutOfFuel, w')
       end.

Notation "'let*' x ':=' m 'in' k" := (bind m (λ x, k))
  (at level 10, x pattern, m at level 100, k at level 200).
Notation "m ';;' k" := (bind m (λ _, k))
  (at level 100, k at level 200, right associativity).

Definition out_of_fuel {A} : M A := λ w, (OutOfFuel, w).

(** [try: m except Exception as e: h e]. *)
Definition try_except {A} (m : M A) (h : exn → M A) : M A :=
  λ w, match m w with
       | (Raise e, w') => h e w'
       | r => r
       end.

(** A remote call: recorded, then its answer or its exception. *)
Definition remote {A} (ev : event) (answer : result A) : M A :=
  λ w, match answer with
       | inr a => (Ok a, log ev w)
       | inl e => (Raise e, log ev w)
       end.

(** A file system call: recorded; on success the file system changes. *)
Definition local (ev : event) (op : filesystem → result filesystem) : M unit :=
  λ w, match op (fs w) with
       | inr f => (Ok tt, set_fs f (log ev w))
       | inl e => (Raise e, log ev w)
       end.

Definition print (msg : string) : M unit := λ w, (Ok tt, log (EvPrint msg) w).

(** [for x in l: body x]. *)
Fixpoint for_each {A} (l : list A) (body : A → M unit) : M unit :=
  match l with
  | [] => ret tt
  | x :: l' => body x ;; for_each l' body
  end.

(** A [for] loop whose body assigns to local variables [S]. *)
Fixpoint for_fold {A S} (l : list A) (body : S → A → M S) (s : S) : M S :=
  match l with
  | [] => ret s
  | x :: l' => let* s' := body s x in for_fold l' body s'
  end.

(* ===================================================================== *)
(** ** class OneDriveDownloader *)
(* ===================================================================== *)

Record OneDriveDownloader := {
  client_id : string;
  client_secret : string;
  tenant_id : string;
  download_path : path;
  graph_client : GraphServiceClient
}.

Definition makedirs (p : path) : M unit := local (EvMakedirs p) (os_makedirs p).

Definition write_file (p : path) (content : bytes) : M unit :=
  local (EvWrite p content) (open_wb_write p content).

Definition download_file (self : OneDriveDownloader)
    (drive_id file_item_id filename : string) (directory_path : path) : M unit :=
  let* content :=
    remote (EvContent drive_id file_item_id)
           (content_get (graph_client self) drive_id file_item_id) in
  let file_path := path_join directory_path filename in
  write_file file_path content ;;
  print ("Downloaded file: " +:+ filename).

(** The body of the loop of [download_folder], given the recursive call. *)
Definition download_item (self : OneDriveDownloader)
    (recurse : string → string → path → M unit)
    (drive_id : string) (parent_directory : path) (item : DriveItem) : M unit :=
  if folder item then
    let new_folder_path := path_join parent_directory (name item) in
    makedirs new_folder_path ;;
    recurse drive_id (id item) new_folder_path
  else if file item then
    download_file self drive_id (id item) (name item) parent_directory
  else ret tt.

(** [fuel] bounds the depth of the recursion. *)
Fixpoint download_folder (fuel : nat) (self : OneDriveDownloader)
    (drive_id folder_item_id : string) (parent_directory : path) : M unit :=
  match fuel with
  | O => out_of_fuel
  | S fuel' =>
      let* items :=
        remote (EvChildren drive_id folder_item_id)
               (children_get (graph_client self) drive_id folder_item_id) in
      for_each items
        (download_item self (download_folder fuel' self) drive_id parent_directory)
  end.

Definition hit_matches (folder_name web_url : string) (hit : SearchHit) : bool :=
  bool_decide (hit_name hit = Some folder_name)
  && bool_decide (hit_web_url hit = Some web_url).

(** The local variables [folder_item_id, drive_id]. *)
Definition found := (option string * option string)%type.

Definition scan_hit (folder_name web_url : string) (st : found) (hit : SearchHit)
  : M found :=
  print (py_str (hit_drive_id hit) +:+ "   " +:+ py_str (hit_name hit)) ;;
  if hit_matches folder_name web_url hit then
    let folder_item_id := hit_id hit in
    let drive_id := hit_drive_id hit in
    print ("Matching folder found. Folder Item ID: " +:+ py_str folder_item_id
           +:+ ", Drive ID: " +:+ py_str drive_id) ;;
    ret (folder_item_id, drive_id)
  else ret st.

Definition scan_results (folder_name web_url : string)
    (value : list SearchResponse) : M found :=
  for_fold value
    (λ st search_response,
       for_fold (hits_containers search_response)
         (λ st hit_container,
            for_fold (hits hit_container) (scan_hit folder_name web_url) st)
         st)
    (None, None).

Definition not_found_message (folder_name web_url : string) : string :=
  "No matching folder found for query: " +:+ folder_name
  +:+ " and webUrl: " +:+ web_url.

Definition error_message (e : exn) : string :=
  "Error while searching for folder : " +:+ str e.

(** The request of [search_and_download]: region IND, the folder name as
    query string, the first 25 hits. *)
Definition search_request (folder_name : string) : SearchRequest :=
  {| region := "IND"; query_string := folder_name; from_ := 0; size := 25 |}.

Definition search_and_download (fuel : nat) (self : OneDriveDownloader)
    (folder_name web_url : string) : M unit :=
  try_except
    (let request_body := search_request folder_name in
     let* value :=
       remote (EvSearch request_body)
              (search_query_post (graph_client self) request_body) in
     let* st := scan_results folder_name web_url value in
     match st with
     | (Some folder_item_id, Some drive_id) =>
         if truthy (Some folder_item_id) && truthy (Some drive_id) then
           download_folder fuel self drive_id folder_item_id
             (path_join (download_path self) folder_name)
         else print (not_found_message folder_name web_url)
     | _ => print (not_found_message folder_name web_url)
     end)
    (λ e, print (error_message e)).

(* ===================================================================== *)
(** ** class OneDriveSearchDownloadApp *)
(* ===================================================================== *)

(** The parsed command line. *)
Record Args := {
  arg_client_id : string;
  arg_client_secret : string;
  arg_tenant_id : string;
  arg_download_path : path;
  arg_folder_name : string;
  arg_web_url : string
}.

(** [ClientSecretCredential] and [GraphServiceClient]: given tenant, client
    id and secret, a client or an exception. *)
Definition identity := string → string → string → result GraphServiceClient.

(** [authenticate]: the credential and the client are built; nothing is
    caught. *)
Definition authenticate (azure : identity)
    (tenant client secret : string) : M GraphServiceClient :=
  λ w, match azure tenant client secret with
       | inr gc => (Ok gc, w)
       | inl e => (Raise e, w)
       end.

(** [OneDriveDownloader(client_id, client_secret, tenant_id, download_path)]:
    the fields are stored and [authenticate] sets the client. *)
Definition new_downloader (azure : identity)
    (cid secret tenant : string) (dl : path) : M OneDriveDownloader :=
  let* gc := authenticate azure tenant cid secret in
  ret {| client_id := cid; client_secret := secret; tenant_id := tenant;
         download_path := dl; graph_client := gc |}.

Definition run (fuel : nat) (azure : identity) (args : Args) : M unit :=
  let* downloader :=
    new_downloader azure (arg_client_id args) (arg_client_secret args)
                   (arg_tenant_id args) (arg_download_path args) in
  search_and_download fuel downloader (arg_folder_name args) (arg_web_url args).

(** The interpreter around [app.run()]: normal return is exit status 0, an
    uncaught exception prints a traceback and gives exit status 1. *)
Inductive process_result :=
| Exited (code : Z)
| Unfinished.

Definition main (fuel : nat) (azure : identity) (args : Args)
  : world → process_result * world :=
  λ w, match run fuel azure args w with
       | (Ok _, w') => (Exited 0, w')
       | (Raise e, w') => (Exited 1, log (EvTraceback e) w')
       | (OutOfFuel, w') => (Unfinished, w')
       end.

(* ===================================================================== *)
(** ** Vocabulary of the properties *)
(* ===================================================================== *)

(** The hits of a search result in the order the nested loops visit them. *)
Definition flatten_hits (value : list SearchResponse) : list SearchHit :=
  concat (map (λ r, concat (map hits (hits_containers r))) value).

(** The value of [(folder_item_id, drive_id)] after the loops went over the
    hits [l], starting from [st]. *)
Definition select_from (folder_name web_url : string) (st : found)
    (l : list SearchHit) : found :=
  fold_left
    (λ st hit,
       if hit_matches folder_name web_url hit
       then (hit_id hit, hit_drive_id hit) else st)
    l st.

Definition select_match (folder_name web_url : string) (l : list SearchHit)
  : found :=
  select_from folder_name web_url (None, None) l.

(** What the loops print for one hit and for a list of hits. *)
Definition hit_events (folder_name web_url : string) (hit : SearchHit)
  : list event :=
  EvPrint (py_str (hit_drive_id hit) +:+ "   " +:+ py_str (hit_name hit))
  :: (if hit_matches folder_name web_url hit
      then [EvPrint ("Matching folder found. Folder Item ID: "
                     +:+ py_str (hit_id hit)
                     +:+ ", Drive ID: " +:+ py_str (hit_drive_id hit))]
      else []).

Definition scan_events (folder_name web_url : string) (l : list SearchHit)
  : list event :=
  concat (map (hit_events folder_name web_url) l).

(** The events of the Tree Downloader: remote listing, remote content,
    directory creation, file write. *)
Definition is_download_event (e : event) : bool :=
  match e with
  | EvChildren _ _ | EvContent _ _ | EvMakedirs _ | EvWrite _ _ => true
  | _ => false
  end.

(** The world in which the match is examined: the search and the scan of
    its hits are on the trace. *)
Definition after_scan (folder_name web_url : string)
    (value : list SearchResponse) (w : world) : world :=
  emit (EvSearch (search_request folder_name)
        :: scan_events folder_name web_url (flatten_hits value)) w.

(** The local directory the matched folder is mirrored into. *)
Definition local_root (self : OneDriveDownloader) (folder_name : string) : path :=
  path_join (download_path self) folder_name.

(** The content last written to [p] by the events [t], if any. *)
Fixpoint written (t : list event) (p : path) : option bytes :=
  match t with
  | [] => None
  | ev :: t' =>
      match written t' p with
      | Some c => Some c
      | None =>
          match ev with
          | EvWrite q c => if decide (q = p) then Some c else None
          | _ => None
          end
      end
  end.

Definition same_kind (n m : node) : bool :=
  match n, m with
  | Dir, Dir => true
  | File _, File _ => true
  | _, _ => false
  end.

(** Every entry of [f] is an entry of the same kind of [g]: directories stay
    directories, files stay files (their content may differ). *)
Definition kinds_le (f g : filesystem) : Prop :=
  ∀ p n, f !! p = Some n → ∃ m, g !! p = Some m ∧ same_kind n m = true.

(** How a stretch of a download with the client [gc] that recorded the
    events [t] leads from the world [w0] to the world [w]: what was written
    was retrieved from [gc]; directories stay; a path written in [t] holds
    the content written last; a file not written in [t] is unchanged. *)
Definition evolves (gc : GraphServiceClient) (t : list event) (w0 w : world)
  : Prop :=
  trace w = trace w0 ++ t
  ∧ (∀ p c, EvWrite p c ∈ t → ∃ d i, content_get gc d i = inr c)
  ∧ (∀ p, fs w0 !! p = Some Dir → fs w !! p = Some Dir)
  ∧ (∀ p, match written t p with
          | Some c => fs w !! p = Some (File c)
          | None => ∀ c, fs w0 !! p = Some (File c) → fs w !! p = Some (File c)
          end).

(** [w] is reached from [w0] by some stretch of a download with [gc]. *)
Definition evolved (gc : GraphServiceClient) (w0 w : world) : Prop :=
  ∃ t, evolves gc t w0 w.

(** The file system only gains entries and keeps the kind of each. *)
Definition grows (w0 w : world) : Prop := kinds_le (fs w0) (fs w).

(** A computation whose normal returns all satisfy the relation [P] between
    the world before and the world after. *)
Definition respects (P : world → world → Prop) {A} (m : M A) : Prop :=
  ∀ w a w', m w = (Ok a, w') → P w w'.

(** An event without the content it carries. *)
Definition erase (ev : event) : event :=
  match ev with
  | EvWrite p _ => EvWrite p []
  | _ => ev
  end.

(** [m2] can be run again where [m1] has run: whenever [m1] returned
    normally and the file system holds at least what [m1] left, [m2] returns
    normally, adds no entry and changes no kind, and records the events of
    [m1] up to the content written. *)
Definition reruns (m1 m2 : M unit) : Prop :=
  ∀ w w1 v, m1 w = (Ok tt, w1) → kinds_le (fs w1) (fs v) →
            ∃ v', m2 v = (Ok tt, v')
                  ∧ kinds_le (fs v) (fs v') ∧ kinds_le (fs v') (fs v)
                  ∧ ∃ t1 t2, trace w1 = trace w ++ t1
                             ∧ trace v' = trace v ++ t2
                             ∧ map erase t1 = map erase t2.

(** The downloader [run] works with once [authenticate] gave the client. *)
Definition downloader_of (args : Args) (gc : GraphServiceClient)
  : OneDriveDownloader :=
  {| client_id := arg_client_id args; client_secret := arg_client_secret args;
     tenant_id := arg_tenant_id args; download_path := arg_download_path args;
     graph_client := gc |}.

(** Whatever the outcome of [m] (normal return, exception, fuel used up),
    the world before and the world after are related by [P]. *)
Definition always (P : world → world → Prop) {A} (m : M A) : Prop :=
  ∀ w o w', m w = (o, w') → P w w'.

(** The events recorded from [w] to [w'] all satisfy [Q]. *)
Definition emits (Q : event → Prop) (w w' : world) : Prop :=
  ∃ t, trace w' = trace w ++ t ∧ Forall Q t.

(** [listed self d i dir item dir']: when folder [i] of drive [d] is
    mirrored into [dir], the item [item] is in the listing of a folder of the
    subtree below [i], and that folder is mirrored into [dir']. *)
Inductive listed (self : OneDriveDownloader) (d : string)
  : string → path → DriveItem → path → Prop :=
| listed_here i dir items item :
    children_get (graph_client self) d i = inr items →
    item ∈ items →
    listed self d i dir item dir
| listed_deeper i dir items sub item dir' :
    children_get (graph_client self) d i = inr items →
    sub ∈ items →
    folder sub = true →
    listed self d (id sub) (path_join dir (name sub)) item dir' →
    listed self d i dir item dir'.

(** What a download of folder [i] into [dir] may record: the listing of [i]
    or of a listed folder, the creation of the directory of a listed folder,
    the retrieval of a listed file and the write of what was retrieved to
    its mirrored path, and prints. *)
Inductive touches (self : OneDriveDownloader) (d i : string) (dir : path)
  : event → Prop :=
| touches_root : touches self d i dir (EvChildren d i)
| touches_listing sub dir' :
    listed self d i dir sub dir' → folder sub = true →
    touches self d i dir (EvChildren d (id sub))
| touches_makedirs sub dir' :
    listed self d i dir sub dir' → folder sub = true →
    touches self d i dir (EvMakedirs (path_join dir' (name sub)))
| touches_content item dir' :
    listed self d i dir item dir' → folder item = false → file item = true →
    touches self d i dir (EvContent d (id item))
| touches_write item dir' c :
    listed self d i dir item dir' → folder item = false → file item = true →
    content_get (graph_client self) d (id item) = inr c →
    touches self d i dir (EvWrite (path_join dir' (name item)) c)
| touches_print msg : touches self d i dir (EvPrint msg).

(** No entry is removed and none changes kind, and a file keeps its content
    unless a write to its path was recorded. *)
Definition keeps (w w' : world) : Prop :=
  kinds_le (fs w) (fs w')
  ∧ ∃ t, trace w' = trace w ++ t
         ∧ ∀ p c, fs w !! p = Some (File c) →
                  (∀ c', EvWrite p c' ∉ t) →
                  fs w' !! p = Some (File c).

(** Every listing of the client holds plain names only. *)
Definition plain_listings (gc : GraphServiceClient) : Prop :=
  ∀ d i items item,
    children_get gc d i = inr items → item ∈ items → plain_name (name item) = true.


(* ===================================================================== *)
(** ** Concrete collaborators used in the examples *)
(* ===================================================================== *)

Definition ex_hit (n u : string) (i d : option string) : SearchHit :=
  {| hit_name := Some n; hit_web_url := Some u; hit_id := i; hit_drive_id := d |}.

(** One response with one container holding the hits [l]. *)
Definition ex_value (l : list SearchHit) : list SearchResponse :=
  [ {| hits_containers := [ {| hits := l |} ] |} ].

Definition ex_f1 : DriveItem :=
  {| id := "f1"; name := "f1.txt"; folder := false; file := true |}.
Definition ex_f2 : DriveItem :=
  {| id := "f2"; name := "f2.txt"; folder := false; file := true |}.
Definition ex_B : DriveItem :=
  {| id := "B"; name := "B"; folder := true; file := false |}.
Definition ex_broken : DriveItem :=
  {| id := "X"; name := "X"; folder := true; file := false |}.
Definition ex_note : DriveItem :=
  {| id := "n"; name := "note"; folder := false; file := false |}.

(** Folder A holds f1.txt and folder B, B holds f2.txt, E is empty, the
    listing of X fails, P holds f1.txt and then X. *)
Definition ex_children (drive_id item_id : string) : result (list DriveItem) :=
  if String.eqb item_id "A" then inr [ex_f1; ex_B]
  else if String.eqb item_id "B" then inr [ex_f2]
  else if String.eqb item_id "P" then inr [ex_f1; ex_broken]
  else if String.eqb item_id "X" then inl (ODataError "listing failed")
  else inr [].

Definition ex_content (drive_id item_id : string) : result bytes :=
  if String.eqb item_id "f1" then inr [Byte.x01]
  else if String.eqb item_id "f2" then inr [Byte.x02]
  else inl (ODataError "itemNotFound").

Definition ex_client (l : list SearchHit) : GraphServiceClient :=
  {| search_query_post := λ _, inr (ex_value l);
     children_get := ex_children;
     content_get := ex_content |}.

(** A downloader whose download path is the working directory. *)
Definition ex_self (l : list SearchHit) : OneDriveDownloader :=
  {| client_id := "app"; client_secret := "secret"; tenant_id := "tenant";
     download_path := []; graph_client := ex_client l |}.

Definition ex_args (fn url : string) : Args :=
  {| arg_client_id := "app"; arg_client_secret := "secret";
     arg_tenant_id := "tenant"; arg_download_path := [];
     arg_folder_name := fn; arg_web_url := url |}.

Definition ex_azure (l : list SearchHit) : identity := λ _ _ _, inr (ex_client l).

(** A fresh working directory and an empty trace. *)
Definition ex_world : world := {| fs := ∅; trace := [] |}.

Definition ex_first : SearchHit := ex_hit "A" "u" (Some "1") (Some "d1").
Definition ex_second : SearchHit := ex_hit "A" "u" (Some "2") (Some "d2").
Definition ex_other : SearchHit := ex_hit "A" "v" (Some "3") (Some "d3").
Definition ex_anonymous : SearchHit := ex_hit "A" "u" None (Some "d1").

(** Hits whose item ids are the folders E (empty), A (a file and a
    subfolder) and X (listing fails). *)
Definition ex_hit_E : SearchHit := ex_hit "E" "u" (Some "E") (Some "d").
Definition ex_hit_A : SearchHit := ex_hit "A" "u" (Some "A") (Some "d").
Definition ex_hit_X : SearchHit := ex_hit "X" "u" (Some "X") (Some "d").

(** A working directory in which the directory A exists already. *)
Definition ex_world_A : world := {| fs := {[ ["A"] := Dir ]}; trace := [] |}.

(** The remote content at a later time: both files have changed. *)
Definition ex_content_later (drive_id item_id : string) : result bytes :=
  if String.eqb item_id "f1" then inr [Byte.x03]
  else if String.eqb item_id "f2" then inr [Byte.x04; Byte.x05]
  else inl (ODataError "itemNotFound").

Definition ex_self_later : OneDriveDownloader :=
  {| client_id := "app"; client_secret := "secret"; tenant_id := "tenant";
     download_path := [];
     graph_client := {| search_query_post := λ _, inr [];
                        children_get := ex_children;
                        content_get := ex_content_later |} |}.

(** The world the first download of A leaves when the directory A exists. *)
Definition ex_world_A1 : world :=
  {| fs := <[ ["A"; "B"; "f2.txt"] := File [Byte.x02] ]>
           (<[ ["A"; "B"] := Dir ]>
            (<[ ["A"; "f1.txt"] := File [Byte.x01] ]> {[ ["A"] := Dir ]}));
     trace := [EvChildren "d" "A";
               EvContent "d" "f1"; EvWrite ["A"; "f1.txt"] [Byte.x01];
               EvPrint "Downloaded file: f1.txt";
               EvMakedirs ["A"; "B"]; EvChildren "d" "B";
               EvContent "d" "f2"; EvWrite ["A"; "B"; "f2.txt"] [Byte.x02];
               EvPrint "Downloaded file: f2.txt"] |}.

(** The world after the listing of P and the download of f1.txt into the
    working directory. *)
Definition ex_world_f1 : world :=
  {| fs := <[ ["f1.txt"] := File [Byte.x01] ]> ∅;
     trace := [EvChildren "d" "P"; EvContent "d" "f1";
               EvWrite ["f1.txt"] [Byte.x01];
               EvPrint "Downloaded file: f1.txt"] |}.

(** An identity service that rejects the secret. *)
Definition ex_azure_denied : identity :=
  λ _ _ _, inl (ClientAuthenticationError "invalid client secret").

(** A downloader whose search call fails. *)
Definition ex_self_down : OneDriveDownloader :=
  {| client_id := "app"; client_secret := "secret"; tenant_id := "tenant";
     download_path := [];
     graph_client := {| search_query_post := λ _, inl (ODataError "service unavailable");
                        children_get := ex_children;
                        content_get := ex_content |} |}.

(** A working directory that holds a regular file named B. *)
Definition ex_world_clash : world :=
  {| fs := {[ ["B"] := File [Byte.x09] ]}; trace := [] |}.

(* ===================================================================== *)
(** ** Worlds and the monad *)
(* ===================================================================== *)

Lemma emit_nil w : emit [] w = w.
Proof. destruct w as [f t]. unfold emit. simpl. by rewrite app_nil_r. Qed.

Lemma emit_emit t1 t2 w : emit t2 (emit t1 w) = emit (t1 ++ t2) w.
Proof. unfold emit. simpl. by rewrite app_assoc. Qed.

Lemma log_emit e t w : log e (emit t w) = emit (t ++ [e]) w.
Proof. unfold log. apply emit_emit. Qed.

Lemma bind_ok {A B} (m : M A) (k : A → M B) a w w' :
  m w = (Ok a, w') → bind m k w = k a w'.
Proof. intros H. unfold bind. by rewrite H. Qed.

Lemma bind_raise {A B} (m : M A) (k : A → M B) e w w' :
  m w = (Raise e, w') → bind m k w = (Raise e, w').
Proof. intros H. unfold bind. by rewrite H. Qed.

Lemma bind_inv_ok {A B} (m : M A) (k : A → M B) b w w2 :
  bind m k w = (Ok b, w2) →
  ∃ a w1, m w = (Ok a, w1) ∧ k a w1 = (Ok b, w2).
Proof.
  unfold bind. destruct (m w) as [[a|e|] w1] eqn:E; intros H; try discriminate.
  by exists a, w1.
Qed.

Lemma for_each_app {A} (l1 l2 : list A) (body : A → M unit) w :
  for_each (l1 ++ l2) body w = (for_each l1 body ;; for_each l2 body) w.
Proof.
  revert w. induction l1 as [|x l1 IH]; intros w; simpl.
  - done.
  - unfold bind in *. destruct (body x w) as [[[]|e|] w1]; try reflexivity.
    apply IH.
Qed.

(* ===================================================================== *)
(** ** The scan of the search result *)
(* ===================================================================== *)

Section Scan.
Variables folder_name web_url : string.

Lemma scan_hit_spec st hit w :
  scan_hit folder_name web_url st hit w
  = (Ok (select_from folder_name web_url st [hit]),
     emit (hit_events folder_name web_url hit) w).
Proof.
  unfold scan_hit, hit_events, select_from, bind, print, ret, log. simpl.
  destruct (hit_matches folder_name web_url hit); simpl.
  - by rewrite emit_emit.
  - done.
Qed.

Lemma scan_hits_spec l st w :
  for_fold l (scan_hit folder_name web_url) st w
  = (Ok (select_from folder_name web_url st l),
     emit (scan_events folder_name web_url l) w).
Proof.
  revert st w. induction l as [|hit l IH]; intros st w; simpl.
  - by rewrite emit_nil.
  - erewrite bind_ok by apply scan_hit_spec.
    rewrite IH, emit_emit. done.
Qed.

Lemma scan_containers_spec cs st w :
  for_fold cs
    (λ st hit_container,
       for_fold (hits hit_container) (scan_hit folder_name web_url) st) st w
  = (Ok (select_from folder_name web_url st (concat (map hits cs))),
     emit (scan_events folder_name web_url (concat (map hits cs))) w).
Proof.
  revert st w. induction cs as [|c cs IH]; intros st w; simpl.
  - by rewrite emit_nil.
  - erewrite bind_ok by apply scan_hits_spec.
    rewrite IH, emit_emit. unfold select_from, scan_events.
    by rewrite fold_left_app, map_app, concat_app.
Qed.

Lemma scan_responses_spec value st w :
  for_fold value
    (λ st search_response,
       for_fold (hits_containers search_response)
         (λ st hit_container,
            for_fold (hits hit_container) (scan_hit folder_name web_url) st)
         st) st w
  = (Ok (select_from folder_name web_url st (flatten_hits value)),
     emit (scan_events folder_name web_url (flatten_hits value)) w).
Proof.
  revert st w. induction value as [|r value IH]; intros st w; simpl.
  - by rewrite emit_nil.
  - erewrite bind_ok by apply scan_containers_spec.
    rewrite IH, emit_emit. unfold select_from, scan_events, flatten_hits.
    simpl. by rewrite fold_left_app, map_app, concat_app.
Qed.

Lemma scan_results_spec value w :
  scan_results folder_name web_url value w
  = (Ok (select_match folder_name web_url (flatten_hits value)),
     emit (scan_events folder_name web_url (flatten_hits value)) w).
Proof. apply scan_responses_spec. Qed.

Lemma select_from_app st l1 l2 :
  select_from folder_name web_url st (l1 ++ l2)
  = select_from folder_name web_url (select_from folder_name web_url st l1) l2.
Proof. apply fold_left_app. Qed.

Lemma select_from_no_match st l :
  Forall (λ hit, hit_matches folder_name web_url hit = false) l →
  select_from folder_name web_url st l = st.
Proof.
  intros H. revert st. induction H as [|hit l Hh _ IH]; intros st; simpl.
  - done.
  - rewrite Hh. apply IH.
Qed.

Lemma select_from_last st l1 hit l2 :
  hit_matches folder_name web_url hit = true →
  Forall (λ hit, hit_matches folder_name web_url hit = false) l2 →
  select_from folder_name web_url st (l1 ++ hit :: l2)
  = (hit_id hit, hit_drive_id hit).
Proof.
  intros Hm Hl2. rewrite select_from_app.
  change (hit :: l2) with ([hit] ++ l2). rewrite select_from_app.
  rewrite (select_from_no_match _ l2 Hl2).
  unfold select_from. simpl. by rewrite Hm.
Qed.

Lemma scan_events_not_download l :
  Forall (λ e, is_download_event e = false) (scan_events folder_name web_url l).
Proof.
  induction l as [|hit l IH]; unfold scan_events; simpl.
  - constructor.
  - constructor; [done|]. apply Forall_app. split; [|exact IH].
    destruct (hit_matches folder_name web_url hit); repeat constructor.
Qed.
End Scan.

(* ===================================================================== *)
(** ** search_and_download after a successful search *)
(* ===================================================================== *)

Section SearchAndDownload.
Variables (fuel : nat) (self : OneDriveDownloader).
Variables (folder_name web_url : string) (value : list SearchResponse).
Hypothesis Hsearch :
  search_query_post (graph_client self) (search_request folder_name) = inr value.

Lemma search_and_download_found w folder_item_id drive_id :
  select_match folder_name web_url (flatten_hits value)
    = (Some folder_item_id, Some drive_id) →
  truthy (Some folder_item_id) && truthy (Some drive_id) = true →
  search_and_download fuel self folder_name web_url w
  = try_except
      (download_folder fuel self drive_id folder_item_id
         (local_root self folder_name))
      (λ e, print (error_message e))
      (after_scan folder_name web_url value w).
Proof.
  intros Hsel Htruthy.
  unfold search_and_download, try_except, bind, remote at 1.
  rewrite Hsearch, scan_results_spec, Hsel, Htruthy.
  unfold log. rewrite emit_emit. done.
Qed.

Lemma search_and_download_not_found w :
  (let '(folder_item_id, drive_id) :=
     select_match folder_name web_url (flatten_hits value) in
   truthy folder_item_id && truthy drive_id) = false →
  search_and_download fuel self folder_name web_url w
  = (Ok tt, log (EvPrint (not_found_message folder_name web_url))
                (after_scan folder_name web_url value w)).
Proof.
  intros Hfalsy.
  unfold search_and_download, try_except, bind, remote at 1.
  rewrite Hsearch, scan_results_spec.
  unfold log at 1. rewrite emit_emit.
  destruct (select_match _ _ _) as [[i|] [d|]]; try done.
  by rewrite Hfalsy.
Qed.

Lemma not_found_run w :
  (let '(folder_item_id, drive_id) :=
     select_match folder_name web_url (flatten_hits value) in
   truthy folder_item_id && truthy drive_id) = false →
  ∃ t, search_and_download fuel self folder_name web_url w = (Ok tt, emit t w)
       ∧ Forall (λ e, is_download_event e = false) t
       ∧ last t = Some (EvPrint (not_found_message folder_name web_url)).
Proof.
  intros Hfalsy.
  exists ((EvSearch (search_request folder_name)
           :: scan_events folder_name web_url (flatten_hits value))
          ++ [EvPrint (not_found_message folder_name web_url)]).
  split; [|split].
  - rewrite search_and_download_not_found by done.
    unfold after_scan. by rewrite log_emit.
  - apply Forall_app. split; [|by repeat constructor].
    constructor; [done|]. apply scan_events_not_download.
  - apply last_snoc.
Qed.
End SearchAndDownload.

(* ===================================================================== *)
(** ** The Folder Locator *)
(* ===================================================================== *)

(** C3: when no hit of the search result has both the requested name and
    the requested webUrl, the scan ends with [folder_item_id] and [drive_id]
    both [None] (NotFound), and the run only searches and prints: it ends
    with the no-matching-folder message and records no children listing, no
    content retrieval, no directory creation and no file write. *)
Theorem no_match_no_download fuel self folder_name web_url value w :
  search_query_post (graph_client self) (search_request folder_name) = inr value →
  Forall (λ hit, hit_matches folder_name web_url hit = false) (flatten_hits value) →
  fst (scan_results folder_name web_url value w) = Ok (None, None)
  ∧ ∃ t, search_and_download fuel self folder_name web_url w = (Ok tt, emit t w)
         ∧ Forall (λ e, is_download_event e = false) t
         ∧ last t = Some (EvPrint (not_found_message folder_name web_url)).
Proof.
  intros Hsearch Hnone.
  assert (Hsel : select_match folder_name web_url (flatten_hits value) = (None, None))
    by (by apply select_from_no_match).
  split.
  - by rewrite scan_results_spec, Hsel.
  - apply (not_found_run _ _ _ _ value Hsearch). by rewrite Hsel.
Qed.

Lemma no_match_no_download_witness :
  fst (scan_results "A" "u" (ex_value [ex_other]) ex_world) = Ok (None, None)
  ∧ ∃ t, search_and_download 0 (ex_self [ex_other]) "A" "u" ex_world
         = (Ok tt, emit t ex_world)
         ∧ Forall (λ e, is_download_event e = false) t
         ∧ last t = Some (EvPrint (not_found_message "A" "u")).
Proof.
  apply (no_match_no_download 0 (ex_self [ex_other]) "A" "u"
           (ex_value [ex_other]) ex_world).
  - reflexivity.
  - repeat constructor.
Defined.

(** C4: when exactly one hit has both the requested name and the requested
    webUrl, wherever it stands among the other hits, the scan ends with
    that hit's item id and parent drive id; and when both are non-empty
    strings they are the ids the download is started with, below
    [download_path/folder_name]. *)
Theorem unique_match_selected folder_name web_url value w l1 hit l2 :
  flatten_hits value = l1 ++ hit :: l2 →
  hit_matches folder_name web_url hit = true →
  Forall (λ h, hit_matches folder_name web_url h = false) l1 →
  Forall (λ h, hit_matches folder_name web_url h = false) l2 →
  fst (scan_results folder_name web_url value w)
    = Ok (hit_id hit, hit_drive_id hit)
  ∧ ∀ fuel self folder_item_id drive_id,
      search_query_post (graph_client self) (search_request folder_name)
        = inr value →
      hit_id hit = Some folder_item_id → folder_item_id ≠ "" →
      hit_drive_id hit = Some drive_id → drive_id ≠ "" →
      search_and_download fuel self folder_name web_url w
      = try_except
          (download_folder fuel self drive_id folder_item_id
             (local_root self folder_name))
          (λ e, print (error_message e))
          (after_scan folder_name web_url value w).
Proof.
  intros Hflat Hm _ Hl2.
  assert (Hsel : select_match folder_name web_url (flatten_hits value)
                 = (hit_id hit, hit_drive_id hit))
    by (rewrite Hflat; by apply select_from_last).
  split.
  - by rewrite scan_results_spec, Hsel.
  - intros fuel self i d Hsearch Hi Hine Hd Hdne.
    apply search_and_download_found; [done| |].
    + by rewrite Hsel, Hi, Hd.
    + simpl. apply andb_true_intro. split; apply negb_true_iff, String.eqb_neq; done.
Qed.

Lemma unique_match_selected_witness :
  fst (scan_results "A" "u" (ex_value [ex_other; ex_first; ex_other]) ex_world)
  = Ok (Some "1", Some "d1").
Proof.
  apply (unique_match_selected "A" "u" (ex_value [ex_other; ex_first; ex_other])
           ex_world [ex_other] ex_first [ex_other]).
  - reflexivity.
  - reflexivity.
  - repeat constructor.
  - repeat constructor.
Defined.

(** C2 (as the code has it): when several hits have both the requested name
    and the requested webUrl, one pair of ids is held when the scan ends,
    namely that of the last such hit in nested iteration order: every
    later exact match overwrites the match found before it. *)
Theorem last_match_selected folder_name web_url value w l1 hit l2 :
  flatten_hits value = l1 ++ hit :: l2 →
  hit_matches folder_name web_url hit = true →
  Forall (λ h, hit_matches folder_name web_url h = false) l2 →
  fst (scan_results folder_name web_url value w)
  = Ok (hit_id hit, hit_drive_id hit).
Proof.
  intros Hflat Hm Hl2. rewrite scan_results_spec. simpl.
  unfold select_match. rewrite Hflat. f_equal. by apply select_from_last.
Qed.

Lemma last_match_selected_witness :
  fst (scan_results "A" "u" (ex_value [ex_first; ex_second]) ex_world)
  = Ok (Some "2", Some "d2").
Proof.
  apply (last_match_selected "A" "u" (ex_value [ex_first; ex_second])
           ex_world [ex_first] ex_second []).
  - reflexivity.
  - reflexivity.
  - constructor.
Defined.

(** C2 as stated fails: of two hits with the requested name and webUrl the
    scan keeps the ids of the second, not of the first. *)
Lemma first_match_overwritten :
  hit_matches "A" "u" ex_first = true
  ∧ hit_matches "A" "u" ex_second = true
  ∧ fst (scan_results "A" "u" (ex_value [ex_first; ex_second]) ex_world)
    = Ok (hit_id ex_second, hit_drive_id ex_second)
  ∧ fst (scan_results "A" "u" (ex_value [ex_first; ex_second]) ex_world)
    ≠ Ok (hit_id ex_first, hit_drive_id ex_first).
Proof. by repeat split. Qed.

(** C10 (as the code has it): when the last hit with the requested name and
    webUrl carries an empty or absent item id or parent drive id, the run
    records no download event and ends with the no-matching-folder
    message, as it does when nothing matched. *)
Theorem falsy_match_not_found fuel self folder_name web_url value w l1 hit l2 :
  search_query_post (graph_client self) (search_request folder_name) = inr value →
  flatten_hits value = l1 ++ hit :: l2 →
  hit_matches folder_name web_url hit = true →
  Forall (λ h, hit_matches folder_name web_url h = false) l2 →
  truthy (hit_id hit) && truthy (hit_drive_id hit) = false →
  ∃ t, search_and_download fuel self folder_name web_url w = (Ok tt, emit t w)
       ∧ Forall (λ e, is_download_event e = false) t
       ∧ last t = Some (EvPrint (not_found_message folder_name web_url)).
Proof.
  intros Hsearch Hflat Hm Hl2 Hfalsy.
  apply (not_found_run _ _ _ _ value Hsearch).
  unfold select_match. rewrite Hflat.
  by rewrite (select_from_last _ _ _ l1 hit l2 Hm Hl2).
Qed.

Lemma falsy_match_not_found_witness :
  ∃ t, search_and_download 1 (ex_self [ex_first; ex_anonymous]) "A" "u" ex_world
       = (Ok tt, emit t ex_world)
       ∧ Forall (λ e, is_download_event e = false) t
       ∧ last t = Some (EvPrint (not_found_message "A" "u")).
Proof.
  apply (falsy_match_not_found 1 (ex_self [ex_first; ex_anonymous]) "A" "u"
           (ex_value [ex_first; ex_anonymous]) ex_world [ex_first] ex_anonymous []).
  - reflexivity.
  - reflexivity.
  - reflexivity.
  - constructor.
  - reflexivity.
Defined.

(** C10 as stated fails: the first exact match has no item id, a later
    exact match has both ids, and the folder of the later one is listed. *)
Lemma falsy_first_match_still_downloads :
  hit_matches "A" "u" ex_anonymous = true
  ∧ truthy (hit_id ex_anonymous) = false
  ∧ ∃ w', search_and_download 1 (ex_self [ex_anonymous; ex_second]) "A" "u" ex_world
          = (Ok tt, w')
          ∧ EvChildren "d2" "2" ∈ trace w'
          ∧ EvPrint (not_found_message "A" "u") ∉ trace w'.
Proof.
  split; [done|]. split; [done|].
  eexists. split; [vm_compute; reflexivity|].
  split.
  - apply list_elem_of_In. simpl. tauto.
  - rewrite list_elem_of_In. simpl. intuition discriminate.
Qed.

(* ===================================================================== *)
(** ** The local file system *)
(* ===================================================================== *)

Lemma makedirs_from_subseteq rest : ∀ pre (f f' : filesystem),
  makedirs_from pre rest f = inr f' → f ⊆ f'.
Proof.
  induction rest as [|s rest IH]; intros pre f f' H; simpl in H.
  - by inversion H.
  - destruct (f !! (pre ++ [s])) as [[|c]|] eqn:E.
    + by eapply IH.
    + by destruct rest.
    + etrans; [|by eapply IH]. by apply insert_subseteq.
Qed.

Lemma os_makedirs_keeps (p : path) (f f' : filesystem) (q : path) (n : node) :
  os_makedirs p f = inr f' → f !! q = Some n → f' !! q = Some n.
Proof.
  intros H Hq. eapply lookup_weaken; [exact Hq|].
  by eapply makedirs_from_subseteq.
Qed.

(* ===================================================================== *)
(** ** The Tree Downloader *)
(* ===================================================================== *)

Lemma download_folder_unfold fuel self drive_id folder_item_id parent_directory w items :
  children_get (graph_client self) drive_id folder_item_id = inr items →
  download_folder (S fuel) self drive_id folder_item_id parent_directory w
  = for_each items
      (download_item self (download_folder fuel self) drive_id parent_directory)
      (log (EvChildren drive_id folder_item_id) w).
Proof. intros H. simpl. unfold bind, remote. by rewrite H. Qed.

Lemma download_folder_listing_fails fuel self drive_id folder_item_id parent_directory w e :
  children_get (graph_client self) drive_id folder_item_id = inl e →
  download_folder (S fuel) self drive_id folder_item_id parent_directory w
  = (Raise e, log (EvChildren drive_id folder_item_id) w).
Proof. intros H. simpl. unfold bind, remote. by rewrite H. Qed.

(** An exception of one child ends the loop: the children after it are not
    visited and the world is the one the exception left. *)
Lemma for_each_raise {A} (pre post : list A) (body : A → M unit) x e w w1 w2 :
  for_each pre body w = (Ok tt, w1) →
  body x w1 = (Raise e, w2) →
  for_each (pre ++ x :: post) body w = (Raise e, w2).
Proof.
  intros Hpre Hx. rewrite for_each_app. erewrite bind_ok by exact Hpre.
  simpl. by erewrite bind_raise by exact Hx.
Qed.

(** C9: a child with neither the folder nor the file facet leaves the world
    as it is (no directory, no content retrieval, no write, nothing
    printed), and the loop goes on with the children after it exactly as
    if the child were not in the listing. *)
Theorem untyped_child_skipped self recurse drive_id parent_directory item :
  folder item = false →
  file item = false →
  (∀ w, download_item self recurse drive_id parent_directory item w = (Ok tt, w))
  ∧ ∀ pre post w,
      for_each (pre ++ item :: post)
        (download_item self recurse drive_id parent_directory) w
      = for_each (pre ++ post)
          (download_item self recurse drive_id parent_directory) w.
Proof.
  intros Hfolder Hfile.
  assert (Hskip : ∀ w, download_item self recurse drive_id parent_directory item w
                       = (Ok tt, w))
    by (intros w; unfold download_item; by rewrite Hfolder, Hfile).
  split; [exact Hskip|].
  intros pre post w. rewrite !for_each_app. unfold bind.
  destruct (for_each pre _ w) as [[[]|e|] w1]; try reflexivity.
  simpl. unfold bind. by rewrite Hskip.
Qed.

Lemma untyped_child_skipped_witness :
  download_item (ex_self []) (download_folder 1 (ex_self [])) "d" ["A"] ex_note ex_world
  = (Ok tt, ex_world).
Proof.
  exact (proj1 (untyped_child_skipped (ex_self []) (download_folder 1 (ex_self []))
                  "d" ["A"] ex_note eq_refl eq_refl) ex_world).
Defined.

(** C8: the listing of a folder holds the children [pre], then a subfolder
    [sub] whose own listing fails with [e], then [post].  After [pre] was
    processed and the directory of [sub] created, the download of the
    folder ends with the exception [e] for its caller; the file system is
    the one left by [pre] plus that directory, so every file present
    after [pre] is still there with the same content. *)
Theorem listing_failure_keeps_files
    fuel self drive_id folder_item_id parent_directory pre sub post e w w1 f2 :
  children_get (graph_client self) drive_id folder_item_id
    = inr (pre ++ sub :: post) →
  folder sub = true →
  for_each pre
    (download_item self (download_folder (S fuel) self) drive_id parent_directory)
    (log (EvChildren drive_id folder_item_id) w) = (Ok tt, w1) →
  os_makedirs (path_join parent_directory (name sub)) (fs w1) = inr f2 →
  children_get (graph_client self) drive_id (id sub) = inl e →
  ∃ w2,
    download_folder (S (S fuel)) self drive_id folder_item_id parent_directory w
      = (Raise e, w2)
    ∧ fs w2 = f2
    ∧ ∀ p content, fs w1 !! p = Some (File content) →
                   fs w2 !! p = Some (File content).
Proof.
  intros Hlist Hfolder Hpre Hmk Hfail.
  set (new_folder_path := path_join parent_directory (name sub)) in *.
  exists (log (EvChildren drive_id (id sub))
            (set_fs f2 (log (EvMakedirs new_folder_path) w1))).
  split; [|split].
  - rewrite (download_folder_unfold _ _ _ _ _ _ _ Hlist).
    eapply for_each_raise; [exact Hpre|].
    unfold download_item. rewrite Hfolder.
    fold new_folder_path. unfold bind, makedirs, local. rewrite Hmk.
    by apply download_folder_listing_fails.
  - done.
  - intros p c Hp. simpl. by eapply os_makedirs_keeps.
Qed.

Lemma listing_failure_keeps_files_witness :
  ∃ w2,
    download_folder 2 (ex_self []) "d" "P" [] ex_world
      = (Raise (ODataError "listing failed"), w2)
    ∧ fs w2 = <[ ["X"] := Dir ]> (fs ex_world_f1)
    ∧ ∀ p content,
        fs ex_world_f1 !! p = Some (File content) →
        fs w2 !! p = Some (File content).
Proof.
  apply (listing_failure_keeps_files 0 (ex_self []) "d" "P" [] [ex_f1] ex_broken []
           (ODataError "listing failed") ex_world ex_world_f1
           (<[ ["X"] := Dir ]> (fs ex_world_f1))).
  - reflexivity.
  - reflexivity.
  - vm_compute. reflexivity.
  - vm_compute. reflexivity.
  - reflexivity.
Defined.

Lemma download_folder_empty fuel self drive_id folder_item_id parent_directory w :
  children_get (graph_client self) drive_id folder_item_id = inr [] →
  download_folder (S fuel) self drive_id folder_item_id parent_directory w
  = (Ok tt, log (EvChildren drive_id folder_item_id) w).
Proof. intros H. by rewrite (download_folder_unfold _ _ _ _ _ _ _ H). Qed.

(** C5 (the code at a failing input): the matched folder E has an empty
    child listing and the working directory is fresh.  The run lists E and
    ends normally; no file is written, and the local directory E, the root
    of the mirror, does not exist afterwards: the file system is still
    empty. *)
Theorem empty_folder_root_not_created :
  ∃ w', search_and_download 1 (ex_self [ex_hit_E]) "E" "u" ex_world = (Ok tt, w')
        ∧ EvChildren "d" "E" ∈ trace w'
        ∧ Forall (λ e, match e with EvWrite _ _ | EvMakedirs _ => False | _ => True end)
                 (trace w')
        ∧ fs w' = ∅
        ∧ is_dir (fs w') (local_root (ex_self [ex_hit_E]) "E") = false.
Proof.
  eexists. split; [vm_compute; reflexivity|].
  split; [apply list_elem_of_In; simpl; tauto|].
  split; [by repeat constructor|]. split; reflexivity.
Qed.

(** C6 (the code at a failing input): folder A lists the file f1.txt and
    then the folder B, and the local directory A does not exist.  The
    first write, to A/f1.txt, raises FileNotFoundError; nothing is on disk
    afterwards, and the run through [search_and_download] reports the
    error and leaves the file system empty. *)
Theorem nested_tree_fresh_destination_fails :
  (∃ w', download_folder 2 (ex_self [ex_hit_A]) "d" "A" ["A"] ex_world
         = (Raise (FileNotFoundError ["A"; "f1.txt"]), w')
         ∧ fs w' = ∅)
  ∧ ∃ w', search_and_download 2 (ex_self [ex_hit_A]) "A" "u" ex_world = (Ok tt, w')
          ∧ last (trace w')
            = Some (EvPrint (error_message (FileNotFoundError ["A"; "f1.txt"])))
          ∧ fs w' = ∅.
Proof.
  split.
  - eexists. split; [vm_compute; reflexivity|reflexivity].
  - eexists. split; [vm_compute; reflexivity|]. split; reflexivity.
Qed.

(** The same tree when the local directory A exists: both files are
    written, and A/B is created before A/B/f2.txt is written. *)
Lemma nested_tree_existing_root :
  ∃ w', download_folder 2 (ex_self [ex_hit_A]) "d" "A" ["A"] ex_world_A = (Ok tt, w')
        ∧ fs w' !! ["A"; "f1.txt"] = Some (File [Byte.x01])
        ∧ fs w' !! ["A"; "B"; "f2.txt"] = Some (File [Byte.x02])
        ∧ trace w'
          = [EvChildren "d" "A";
             EvContent "d" "f1"; EvWrite ["A"; "f1.txt"] [Byte.x01];
             EvPrint "Downloaded file: f1.txt";
             EvMakedirs ["A"; "B"]; EvChildren "d" "B";
             EvContent "d" "f2"; EvWrite ["A"; "B"; "f2.txt"] [Byte.x02];
             EvPrint "Downloaded file: f2.txt"].
Proof.
  eexists. split; [vm_compute; reflexivity|]. repeat split; reflexivity.
Qed.

(* ===================================================================== *)
(** ** The CLI driver *)
(* ===================================================================== *)

Lemma run_authenticated fuel azure args gc w :
  azure (arg_tenant_id args) (arg_client_id args) (arg_client_secret args) = inr gc →
  run fuel azure args w
  = search_and_download fuel (downloader_of args gc)
      (arg_folder_name args) (arg_web_url args) w.
Proof. intros H. unfold run, bind, new_downloader, authenticate. by rewrite H. Qed.

(** X3: an exception of [authenticate] is caught nowhere: the process ends
    with a traceback and exit status 1; nothing was searched, printed or
    written. *)
Lemma authentication_error_exits_one fuel azure args e w :
  azure (arg_tenant_id args) (arg_client_id args) (arg_client_secret args) = inl e →
  main fuel azure args w = (Exited 1, log (EvTraceback e) w).
Proof.
  intros H. unfold main, run, bind, new_downloader, authenticate. by rewrite H.
Qed.

(** C1 (as the code has it): once authentication gave a client and the
    search returned, the process exits 0 in every case.  With no usable
    match it prints the no-matching-folder message; with one, a download
    that completes leaves its world, and a download that raises [e]
    (listing, content retrieval or file write) has [e] caught by
    [search_and_download], which prints the error message: the exit status
    is 0 all the same. *)
Theorem downloader_errors_exit_zero fuel azure args gc value w :
  azure (arg_tenant_id args) (arg_client_id args) (arg_client_secret args) = inr gc →
  search_query_post gc (search_request (arg_folder_name args)) = inr value →
  let self := downloader_of args gc in
  let folder_name := arg_folder_name args in
  let web_url := arg_web_url args in
  let st := select_match folder_name web_url (flatten_hits value) in
  let ws := after_scan folder_name web_url value w in
  (truthy (fst st) && truthy (snd st) = false →
   main fuel azure args w
   = (Exited 0, log (EvPrint (not_found_message folder_name web_url)) ws))
  ∧ ∀ folder_item_id drive_id w',
      st = (Some folder_item_id, Some drive_id) →
      truthy (fst st) && truthy (snd st) = true →
      (download_folder fuel self drive_id folder_item_id
         (local_root self folder_name) ws = (Ok tt, w') →
       main fuel azure args w = (Exited 0, w'))
      ∧ ∀ e,
          download_folder fuel self drive_id folder_item_id
            (local_root self folder_name) ws = (Raise e, w') →
          main fuel azure args w
          = (Exited 0, log (EvPrint (error_message e)) w').
Proof.
  intros Hauth Hsearch self folder_name web_url st ws.
  split.
  - intros Hfalsy. unfold main. rewrite (run_authenticated _ _ _ _ _ Hauth).
    rewrite (search_and_download_not_found fuel self folder_name web_url value
               Hsearch); [done|].
    fold st. by destruct st.
  - intros i d w' Hst Htruthy.
    assert (Hrun : run fuel azure args w
                   = try_except
                       (download_folder fuel self d i (local_root self folder_name))
                       (λ e, print (error_message e)) ws).
    { rewrite (run_authenticated _ _ _ _ _ Hauth).
      apply (search_and_download_found fuel self folder_name web_url value
               Hsearch); [done|].
      by rewrite Hst in Htruthy. }
    split.
    + intros Hok. unfold main. rewrite Hrun. unfold try_except. by rewrite Hok.
    + intros e Hraise. unfold main. rewrite Hrun. unfold try_except.
      by rewrite Hraise.
Qed.

Lemma downloader_errors_exit_zero_witness :
  main 1 (ex_azure [ex_hit_X]) (ex_args "X" "u") ex_world
  = (Exited 0,
     log (EvPrint (error_message (ODataError "listing failed")))
       (log (EvChildren "d" "X")
          (after_scan "X" "u" (ex_value [ex_hit_X]) ex_world))).
Proof.
  destruct (downloader_errors_exit_zero 1 (ex_azure [ex_hit_X]) (ex_args "X" "u")
              (ex_client [ex_hit_X]) (ex_value [ex_hit_X]) ex_world
              eq_refl eq_refl) as [_ H].
  destruct (H "X" "d"
              (log (EvChildren "d" "X")
                 (after_scan "X" "u" (ex_value [ex_hit_X]) ex_world))
              eq_refl eq_refl) as [_ H'].
  apply H'. reflexivity.
Defined.

(** C1 as stated fails: the listing of the matched folder raises, the
    download ends with that exception, and the process still exits 0. *)
Lemma listing_error_exits_zero :
  fst (download_folder 1 (ex_self [ex_hit_X]) "d" "X" ["X"]
         (after_scan "X" "u" (ex_value [ex_hit_X]) ex_world))
  = Raise (ODataError "listing failed")
  ∧ fst (main 1 (ex_azure [ex_hit_X]) (ex_args "X" "u") ex_world) = Exited 0.
Proof. split; reflexivity. Qed.


(* ===================================================================== *)
(** ** Kinds of entries, and how a download changes the world *)
(* ===================================================================== *)

Lemma same_kind_refl n : same_kind n n = true.
Proof. by destruct n. Qed.

Lemma same_kind_trans n m k :
  same_kind n m = true → same_kind m k = true → same_kind n k = true.
Proof. by destruct n, m, k. Qed.

Lemma same_kind_Dir m : same_kind Dir m = true → m = Dir.
Proof. by destruct m. Qed.

Lemma same_kind_File c m : same_kind (File c) m = true → ∃ c', m = File c'.
Proof. destruct m; [done|]. by eexists. Qed.

Lemma kinds_le_refl (f : filesystem) : kinds_le f f.
Proof. intros p n H. exists n. split; [done|apply same_kind_refl]. Qed.

Lemma kinds_le_trans (f g h : filesystem) :
  kinds_le f g → kinds_le g h → kinds_le f h.
Proof.
  intros Hfg Hgh p n Hp.
  destruct (Hfg p n Hp) as (m & Hm & Hnm).
  destruct (Hgh p m Hm) as (k & Hk & Hmk).
  exists k. split; [done|]. by eapply same_kind_trans.
Qed.

Lemma kinds_le_subseteq (f g : filesystem) : f ⊆ g → kinds_le f g.
Proof.
  intros Hsub p n Hp. exists n. split; [|apply same_kind_refl].
  by eapply lookup_weaken.
Qed.

Lemma kinds_le_Dir (f g : filesystem) (p : path) :
  kinds_le f g → f !! p = Some Dir → g !! p = Some Dir.
Proof.
  intros Hle Hp. destruct (Hle p Dir Hp) as (m & Hm & Hk).
  by rewrite (same_kind_Dir m Hk) in Hm.
Qed.

Lemma kinds_le_File (f g : filesystem) (p : path) (c : bytes) :
  kinds_le f g → f !! p = Some (File c) → ∃ c', g !! p = Some (File c').
Proof.
  intros Hle Hp. destruct (Hle p (File c) Hp) as (m & Hm & Hk).
  destruct (same_kind_File c m Hk) as [c' ->]. by exists c'.
Qed.

(** Writing a file over a file adds no entry and changes no kind. *)
Lemma kinds_le_overwrite (f : filesystem) (p : path) (c c0 : bytes) :
  f !! p = Some (File c0) →
  kinds_le f (<[p := File c]> f) ∧ kinds_le (<[p := File c]> f) f.
Proof.
  intros Hp. split; intros q n Hq.
  - destruct (decide (p = q)) as [<-|Hne].
    + exists (File c). rewrite lookup_insert_eq. split; [done|].
      rewrite Hp in Hq. by inversion Hq.
    + exists n. rewrite lookup_insert_ne by done. split; [done|apply same_kind_refl].
  - destruct (decide (p = q)) as [<-|Hne].
    + rewrite lookup_insert_eq in Hq. inversion Hq. by exists (File c0).
    + rewrite lookup_insert_ne in Hq by done.
      exists n. split; [done|apply same_kind_refl].
Qed.

Lemma kinds_le_insert_file (f : filesystem) (p : path) (c : bytes) :
  f !! p ≠ Some Dir → kinds_le f (<[p := File c]> f).
Proof.
  intros Hp q n Hq. destruct (decide (p = q)) as [<-|Hne].
  - exists (File c). rewrite lookup_insert_eq. split; [done|].
    destruct n; [done|done].
  - exists n. rewrite lookup_insert_ne by done. split; [done|apply same_kind_refl].
Qed.

Lemma written_app t1 t2 p :
  written (t1 ++ t2) p
  = match written t2 p with
    | Some c => Some c
    | None => written t1 p
    end.
Proof.
  induction t1 as [|ev t1 IH]; simpl.
  - by destruct (written t2 p).
  - rewrite IH. by destruct (written t2 p).
Qed.

Lemma evolves_refl gc w : evolves gc [] w w.
Proof.
  split; [by rewrite app_nil_r|]. split; [|split].
  - intros p c H. by apply elem_of_nil in H.
  - done.
  - intros p. simpl. done.
Qed.

Lemma evolves_trans gc t1 t2 w0 w1 w2 :
  evolves gc t1 w0 w1 → evolves gc t2 w1 w2 → evolves gc (t1 ++ t2) w0 w2.
Proof.
  intros (Ht1 & Hc1 & Hd1 & Hw1) (Ht2 & Hc2 & Hd2 & Hw2).
  split; [|split; [|split]].
  - by rewrite Ht2, Ht1, app_assoc.
  - intros p c [H|H]%elem_of_app; eauto.
  - eauto.
  - intros p. rewrite written_app.
    specialize (Hw1 p). specialize (Hw2 p).
    destruct (written t2 p) as [c2|]; [done|].
    destruct (written t1 p) as [c1|]; eauto.
Qed.

Lemma evolves_kinds_le gc t w0 w :
  evolves gc t w0 w → kinds_le (fs w0) (fs w).
Proof.
  intros (_ & _ & Hd & Hw) p [|c] Hp.
  - exists Dir. split; [by apply Hd|done].
  - specialize (Hw p). destruct (written t p) as [c'|].
    + by exists (File c').
    + exists (File c). split; [by apply Hw|done].
Qed.

(** Remote calls and prints leave the file system alone. *)
Lemma evolves_log gc ev w :
  (∀ p c, ev ≠ EvWrite p c) → evolves gc [ev] w (log ev w).
Proof.
  intros Hev. split; [done|]. split; [|split].
  - intros p c H%list_elem_of_singleton. symmetry in H. by destruct (Hev p c).
  - done.
  - intros p. simpl. destruct ev; try done. by destruct (Hev p0 content).
Qed.

Lemma evolves_makedirs (gc : GraphServiceClient) (p : path) (w : world)
    (f : filesystem) :
  os_makedirs p (fs w) = inr f →
  evolves gc [EvMakedirs p] w (set_fs f (log (EvMakedirs p) w)).
Proof.
  intros Hmk. split; [done|]. split; [|split].
  - intros q c H%list_elem_of_singleton. discriminate.
  - intros q Hq. simpl. by eapply os_makedirs_keeps.
  - intros q. simpl. intros c Hq. by eapply os_makedirs_keeps.
Qed.

Lemma open_wb_write_inv (p : path) (c : bytes) (f f' : filesystem) :
  open_wb_write p c f = inr f' →
  p ≠ [] ∧ walk [] (parent p) f = None
  ∧ f !! p ≠ Some Dir ∧ f' = <[p := File c]> f.
Proof.
  unfold open_wb_write. destruct p as [|s p]; [done|].
  destruct (walk [] (parent (s :: p)) f) as [[|]|]; try done.
  intros H. split; [done|]. split; [done|].
  repeat case_match; try done; inversion H; split; congruence.
Qed.

Lemma evolves_write (gc : GraphServiceClient) (p : path) (c : bytes) (w : world)
    (f : filesystem) (d i : string) :
  content_get gc d i = inr c →
  open_wb_write p c (fs w) = inr f →
  evolves gc [EvWrite p c] w (set_fs f (log (EvWrite p c) w)).
Proof.
  intros Hc (Hp & _ & Hnd & ->)%open_wb_write_inv.
  split; [done|]. split; [|split].
  - intros q c' H%list_elem_of_singleton. inversion H. subst. eauto.
  - intros q Hq. simpl. rewrite lookup_insert_ne; [done|]. by intros <-.
  - intros q. simpl. destruct (decide (p = q)) as [<-|Hne].
    + by rewrite lookup_insert_eq.
    + intros c' Hq. by rewrite lookup_insert_ne.
Qed.

(* ===================================================================== *)
(** ** What every normal return of the Tree Downloader satisfies *)
(* ===================================================================== *)

Lemma respects_weaken (P Q : world → world → Prop) {A} (m : M A) :
  (∀ w w', P w w' → Q w w') → respects P m → respects Q m.
Proof. intros HPQ Hm w a w' H. apply HPQ. by eapply Hm. Qed.

Section Respects.
Variable self : OneDriveDownloader.
Variable P : world → world → Prop.
Hypothesis P_refl : ∀ w, P w w.
Hypothesis P_trans : ∀ w1 w2 w3, P w1 w2 → P w2 w3 → P w1 w3.
Hypothesis P_log : ∀ ev w, (∀ p c, ev ≠ EvWrite p c) → P w (log ev w).
Hypothesis P_makedirs : ∀ (p : path) (w : world) (f : filesystem),
  os_makedirs p (fs w) = inr f → P w (set_fs f (log (EvMakedirs p) w)).
Hypothesis P_write :
  ∀ (p : path) (c : bytes) (w : world) (f : filesystem) (d i : string),
    content_get (graph_client self) d i = inr c →
    open_wb_write p c (fs w) = inr f →
    P w (set_fs f (log (EvWrite p c) w)).

Lemma respects_ret {A} (a : A) : respects P (ret a).
Proof. intros w a' w' H. inversion H. apply P_refl. Qed.

Lemma respects_bind {A B} (m : M A) (k : A → M B) :
  respects P m → (∀ a, respects P (k a)) → respects P (bind m k).
Proof.
  intros Hm Hk w b w2 (a & w1 & H1 & H2)%bind_inv_ok.
  eapply P_trans; [by eapply Hm|by eapply Hk].
Qed.

Lemma respects_for_each {A} (l : list A) (body : A → M unit) :
  (∀ x, respects P (body x)) → respects P (for_each l body).
Proof.
  intros Hbody. induction l as [|x l IH]; simpl.
  - apply respects_ret.
  - apply respects_bind; [apply Hbody|]. intros _. exact IH.
Qed.

Lemma respects_remote {A} ev (answer : result A) :
  (∀ p c, ev ≠ EvWrite p c) → respects P (remote ev answer).
Proof.
  intros Hev w a w' H. unfold remote in H.
  destruct answer; inversion H. by apply P_log.
Qed.

Lemma respects_print msg : respects P (print msg).
Proof. intros w a w' H. inversion H. by apply P_log. Qed.

Lemma respects_makedirs p : respects P (makedirs p).
Proof.
  intros w a w' H. unfold makedirs, local in H.
  destruct (os_makedirs p (fs w)) eqn:E; inversion H.
  exact (P_makedirs _ _ _ E).
Qed.

Lemma respects_download_file drive_id file_item_id filename directory_path :
  respects P (download_file self drive_id file_item_id filename directory_path).
Proof.
  intros w a w3 H. unfold download_file in H.
  apply bind_inv_ok in H as (c & w1 & H1 & H).
  apply bind_inv_ok in H as ([] & w2 & H2 & H3).
  unfold remote in H1.
  destruct (content_get _ _ _) as [e|c'] eqn:Hc; inversion H1; subst.
  unfold write_file, local in H2.
  destruct (open_wb_write _ _ _) as [e|f] eqn:Hw; inversion H2; subst.
  apply (P_trans _ (log (EvContent drive_id file_item_id) w)); [by apply P_log|].
  eapply P_trans; [exact (P_write _ _ _ _ _ _ Hc Hw)|].
  exact (respects_print _ _ _ _ H3).
Qed.

Lemma respects_download_item recurse drive_id parent_directory item :
  (∀ d i p, respects P (recurse d i p)) →
  respects P (download_item self recurse drive_id parent_directory item).
Proof.
  intros Hrec. unfold download_item.
  destruct (folder item); [|destruct (file item)].
  - apply respects_bind; [apply respects_makedirs|]. intros _. apply Hrec.
  - apply respects_download_file.
  - apply respects_ret.
Qed.

Lemma respects_download_folder fuel : ∀ drive_id folder_item_id parent_directory,
  respects P (download_folder fuel self drive_id folder_item_id parent_directory).
Proof.
  induction fuel as [|fuel IH]; intros d i dir; simpl.
  - intros w a w' H. inversion H.
  - apply respects_bind; [by apply respects_remote|].
    intros items. apply respects_for_each. intros item.
    by apply respects_download_item.
Qed.
End Respects.

Section Evolved.
Variable self : OneDriveDownloader.

Lemma evolved_refl w : evolved (graph_client self) w w.
Proof. exists []. apply evolves_refl. Qed.

Lemma evolved_trans w1 w2 w3 :
  evolved (graph_client self) w1 w2 → evolved (graph_client self) w2 w3 →
  evolved (graph_client self) w1 w3.
Proof. intros [t1 H1] [t2 H2]. exists (t1 ++ t2). by eapply evolves_trans. Qed.

Lemma evolved_log ev w :
  (∀ p c, ev ≠ EvWrite p c) → evolved (graph_client self) w (log ev w).
Proof. intros Hev. exists [ev]. by apply evolves_log. Qed.

Lemma evolved_makedirs (p : path) (w : world) (f : filesystem) :
  os_makedirs p (fs w) = inr f →
  evolved (graph_client self) w (set_fs f (log (EvMakedirs p) w)).
Proof. intros H. eexists. by apply evolves_makedirs. Qed.

Lemma evolved_write (p : path) (c : bytes) (w : world) (f : filesystem)
    (d i : string) :
  content_get (graph_client self) d i = inr c →
  open_wb_write p c (fs w) = inr f →
  evolved (graph_client self) w (set_fs f (log (EvWrite p c) w)).
Proof. intros Hc H. eexists. by eapply evolves_write. Qed.

Lemma evolved_grows w w' : evolved (graph_client self) w w' → grows w w'.
Proof. intros [t H]. by eapply evolves_kinds_le. Qed.

(** A download that returns normally wrote only content of its client, kept
    every directory, left in each written path the content written last and
    left every other file as it was. *)
Lemma download_folder_evolved fuel drive_id folder_item_id parent_directory :
  respects (evolved (graph_client self))
    (download_folder fuel self drive_id folder_item_id parent_directory).
Proof.
  exact (respects_download_folder self _ evolved_refl evolved_trans evolved_log
           evolved_makedirs evolved_write fuel _ _ _).
Qed.

Lemma download_folder_grows fuel drive_id folder_item_id parent_directory :
  respects grows
    (download_folder fuel self drive_id folder_item_id parent_directory).
Proof.
  eapply respects_weaken; [apply evolved_grows|apply download_folder_evolved].
Qed.

Lemma download_item_grows fuel drive_id parent_directory item :
  respects grows
    (download_item self (download_folder fuel self) drive_id parent_directory item).
Proof.
  eapply respects_weaken; [apply evolved_grows|].
  apply (respects_download_item self _ evolved_refl evolved_trans evolved_log
           evolved_makedirs evolved_write).
  intros d i p. apply download_folder_evolved.
Qed.
End Evolved.

(* ===================================================================== *)
(** ** Running the download again *)
(* ===================================================================== *)

Lemma makedirs_from_saturated rest : ∀ pre (f f' g : filesystem),
  makedirs_from pre rest f = inr f' → kinds_le f' g →
  makedirs_from pre rest g = inr g.
Proof.
  induction rest as [|s rest IH]; intros pre f f' g H Hle; simpl in *.
  - done.
  - assert (Hq : f' !! (pre ++ [s]) = Some Dir).
    { destruct (f !! (pre ++ [s])) as [[|c]|] eqn:E.
      - eapply lookup_weaken; [exact E|]. by eapply makedirs_from_subseteq.
      - by destruct rest.
      - eapply lookup_weaken; [|by eapply makedirs_from_subseteq].
        apply lookup_insert_eq. }
    rewrite (kinds_le_Dir _ _ _ Hle Hq).
    destruct (f !! (pre ++ [s])) as [[|c]|] eqn:E.
    + by eapply IH.
    + by destruct rest.
    + by eapply IH.
Qed.

(** Creating a directory that is there is not an error and changes nothing. *)
Lemma os_makedirs_idempotent (p : path) (f f' : filesystem) :
  os_makedirs p f = inr f' → os_makedirs p f' = inr f'.
Proof. intros H. eapply makedirs_from_saturated; [exact H|apply kinds_le_refl]. Qed.

Lemma walk_saturated rest : ∀ pre (f g : filesystem),
  walk pre rest f = None → kinds_le f g → walk pre rest g = None.
Proof.
  induction rest as [|s rest IH]; intros pre f g H Hle; simpl in *; [done|].
  destruct (f !! (pre ++ [s])) as [[|c]|] eqn:E; try done.
  rewrite (kinds_le_Dir _ _ _ Hle E). by eapply IH.
Qed.

Lemma open_wb_write_saturated (p : path) (c c' : bytes) (f f' g : filesystem) :
  open_wb_write p c f = inr f' → kinds_le f' g →
  (∃ c0, g !! p = Some (File c0))
  ∧ open_wb_write p c' g = inr (<[p := File c']> g).
Proof.
  intros (Hp & Hwalk & Hnd & ->)%open_wb_write_inv Hle.
  assert (Hgp : ∃ c0, g !! p = Some (File c0)).
  { eapply kinds_le_File; [exact Hle|]. apply lookup_insert_eq. }
  assert (Hgwalk : walk [] (parent p) g = None).
  { eapply walk_saturated; [exact Hwalk|].
    eapply kinds_le_trans; [by apply (kinds_le_insert_file f p c)|exact Hle]. }
  split; [done|]. destruct Hgp as [c0 Hgp].
  unfold open_wb_write. destruct p as [|s p]; [done|].
  by rewrite Hgwalk, Hgp.
Qed.

Lemma grows_refl w : grows w w.
Proof. apply kinds_le_refl. Qed.

Lemma reruns_ret : reruns (ret tt) (ret tt).
Proof.
  intros w w1 v H Hle. inversion H; subst. exists v. split; [done|].
  split; [apply kinds_le_refl|]. split; [apply kinds_le_refl|].
  exists [], []. by rewrite !app_nil_r.
Qed.

Lemma reruns_seq (m1 k1 m2 k2 : M unit) :
  reruns m1 m2 → reruns k1 k2 → respects grows k1 →
  reruns (m1 ;; k1) (m2 ;; k2).
Proof.
  intros Hm Hk Hgrows w w2 v H Hle.
  apply bind_inv_ok in H as ([] & w1 & H1 & H2).
  pose proof (Hgrows _ _ _ H2) as H12.
  destruct (Hm w w1 v H1)
    as (v1 & Hv1 & Hvv1 & Hv1v & t1 & t2 & Ht1 & Ht2 & Ht);
    [by eapply kinds_le_trans|].
  destruct (Hk w1 w2 v1 H2)
    as (v2 & Hv2 & Hv12 & Hv21 & t1' & t2' & Ht1' & Ht2' & Ht');
    [by eapply kinds_le_trans|].
  exists v2. split; [by erewrite bind_ok|].
  split; [by eapply kinds_le_trans|]. split; [by eapply kinds_le_trans|].
  exists (t1 ++ t1'), (t2 ++ t2'). split; [|split].
  - by rewrite Ht1', Ht1, app_assoc.
  - by rewrite Ht2', Ht2, app_assoc.
  - by rewrite !map_app, Ht, Ht'.
Qed.

Lemma reruns_for_each {A} (l : list A) (b1 b2 : A → M unit) :
  (∀ x, reruns (b1 x) (b2 x)) → (∀ x, respects grows (b1 x)) →
  reruns (for_each l b1) (for_each l b2).
Proof.
  intros Hb Hgrows. induction l as [|x l IH]; simpl.
  - apply reruns_ret.
  - apply reruns_seq; [apply Hb|exact IH|].
    apply respects_for_each; [apply grows_refl| |done].
    intros w1 w2 w3. apply kinds_le_trans.
Qed.

Lemma reruns_makedirs p : reruns (makedirs p) (makedirs p).
Proof.
  intros w w1 v H Hle. unfold makedirs, local in *.
  destruct (os_makedirs p (fs w)) as [e|f] eqn:E; inversion H; subst.
  simpl in Hle. unfold os_makedirs in *.
  rewrite (makedirs_from_saturated _ _ _ _ _ E Hle).
  eexists. split; [done|]. split; [apply kinds_le_refl|].
  split; [apply kinds_le_refl|]. by exists [EvMakedirs p], [EvMakedirs p].
Qed.

Section Rerun.
Variables self1 self2 : OneDriveDownloader.
Hypothesis Hchildren : ∀ d i,
  children_get (graph_client self2) d i = children_get (graph_client self1) d i.
Hypothesis Hcontent : ∀ d i c,
  content_get (graph_client self1) d i = inr c →
  ∃ c', content_get (graph_client self2) d i = inr c'.

Lemma reruns_download_file drive_id file_item_id filename directory_path :
  reruns (download_file self1 drive_id file_item_id filename directory_path)
         (download_file self2 drive_id file_item_id filename directory_path).
Proof.
  intros w w3 v H Hle. unfold download_file in *.
  apply bind_inv_ok in H as (c & w1 & H1 & H).
  apply bind_inv_ok in H as ([] & w2 & H2 & H3).
  unfold remote in H1.
  destruct (content_get (graph_client self1) _ _) as [e|c0] eqn:Hc;
    inversion H1; subst.
  unfold write_file, local in H2.
  destruct (open_wb_write _ _ _) as [e|f] eqn:Hw; inversion H2; subst.
  inversion H3; subst. simpl in Hle, Hw.
  destruct (Hcontent _ _ _ Hc) as [c' Hc'].
  destruct (open_wb_write_saturated _ _ c' _ _ _ Hw Hle) as [[c1 Hp] Hw'].
  unfold bind, remote, write_file, local, print. rewrite Hc'. simpl.
  rewrite Hw'. eexists. split; [done|]. simpl.
  destruct (kinds_le_overwrite (fs v) _ c' c1 Hp) as [Hto Hback].
  split; [exact Hto|]. split; [exact Hback|].
  eexists [_; _; _], [_; _; _]. split; [|split].
  - by rewrite <- !app_assoc.
  - by rewrite <- !app_assoc.
  - done.
Qed.

Lemma reruns_download_item rec1 rec2 drive_id parent_directory item :
  (∀ d i p, reruns (rec1 d i p) (rec2 d i p)) →
  (∀ d i p, respects grows (rec1 d i p)) →
  reruns (download_item self1 rec1 drive_id parent_directory item)
         (download_item self2 rec2 drive_id parent_directory item).
Proof.
  intros Hrec Hgrows. unfold download_item.
  destruct (folder item); [|destruct (file item)].
  - apply reruns_seq; [apply reruns_makedirs|apply Hrec|apply Hgrows].
  - apply reruns_download_file.
  - apply reruns_ret.
Qed.

Lemma reruns_download_folder fuel : ∀ drive_id folder_item_id parent_directory,
  reruns (download_folder fuel self1 drive_id folder_item_id parent_directory)
         (download_folder fuel self2 drive_id folder_item_id parent_directory).
Proof.
  induction fuel as [|fuel IH]; intros d i dir w w2 v H Hle; simpl in *.
  - inversion H.
  - unfold bind at 1, remote in H. unfold bind at 1, remote.
    rewrite Hchildren.
    destruct (children_get (graph_client self1) d i) as [e|items]; [done|].
    assert (Hr : reruns
                   (for_each items
                      (download_item self1 (download_folder fuel self1) d dir))
                   (for_each items
                      (download_item self2 (download_folder fuel self2) d dir))).
    { apply reruns_for_each.
      - intros item. apply reruns_download_item; [exact IH|].
        intros d' i' p'. apply download_folder_grows.
      - intros item. apply download_item_grows. }
    destruct (Hr _ _ (log (EvChildren d i) v) H Hle)
      as (v' & Hv' & Hto & Hback & t1 & t2 & Ht1 & Ht2 & Ht).
    exists v'. split; [done|]. split; [done|]. split; [done|].
    exists (EvChildren d i :: t1), (EvChildren d i :: t2). split; [|split].
    + rewrite Ht1. simpl. by rewrite <- app_assoc.
    + rewrite Ht2. simpl. by rewrite <- app_assoc.
    + simpl. by rewrite Ht.
Qed.
End Rerun.

Lemma written_elem t p c : written t p = Some c → EvWrite p c ∈ t.
Proof.
  induction t as [|ev t IH]; simpl; [done|].
  destruct (written t p) as [c'|].
  - intros H. apply list_elem_of_further. by apply IH.
  - destruct ev; try done. case_decide as Hq; [|done].
    intros Hc. inversion Hc. subst. apply list_elem_of_here.
Qed.

Lemma written_erase t p :
  written (map erase t) p = (λ _, []) <$> written t p.
Proof.
  induction t as [|ev t IH]; simpl; [done|].
  rewrite IH. destruct (written t p); simpl; [done|].
  destruct ev; simpl; try done. by case_decide.
Qed.

(** Runs that differ only in the content written write the same paths. *)
Lemma same_shape_written t1 t2 p :
  map erase t1 = map erase t2 →
  is_Some (written t1 p) → is_Some (written t2 p).
Proof.
  intros Hshape [c Hc].
  pose proof (written_erase t1 p) as H1. pose proof (written_erase t2 p) as H2.
  rewrite Hshape, H2, Hc in H1. by destruct (written t2 p).
Qed.



(* ===================================================================== *)
(** ** What holds whatever the outcome *)
(* ===================================================================== *)

Lemma bind_inv {A B} (m : M A) (k : A → M B) o w w2 :
  bind m k w = (o, w2) →
  (∃ a w1, m w = (Ok a, w1) ∧ k a w1 = (o, w2))
  ∨ (∃ e, m w = (Raise e, w2) ∧ o = Raise e)
  ∨ (m w = (OutOfFuel, w2) ∧ o = OutOfFuel).
Proof.
  unfold bind. destruct (m w) as [[a|e|] w1]; intros H.
  - left. by exists a, w1.
  - right. left. exists e. by inversion H.
  - right. right. by inversion H.
Qed.

Section Always.
Variable P : world → world → Prop.
Hypothesis P_refl : ∀ w, P w w.
Hypothesis P_trans : ∀ w1 w2 w3, P w1 w2 → P w2 w3 → P w1 w3.

Lemma always_ret {A} (a : A) : always P (ret a).
Proof. intros w o w' H. inversion H. apply P_refl. Qed.

Lemma always_out_of_fuel {A} : always P (@out_of_fuel A).
Proof. intros w o w' H. inversion H. apply P_refl. Qed.

Lemma always_bind {A B} (m : M A) (k : A → M B) :
  always P m → (∀ a, always P (k a)) → always P (bind m k).
Proof.
  intros Hm Hk w o w2 [(a & w1 & H1 & H2)|[(e & H1 & _)|[H1 _]]]%bind_inv.
  - eapply P_trans; [by eapply Hm|by eapply Hk].
  - by eapply Hm.
  - by eapply Hm.
Qed.

Lemma always_for_each {A} (l : list A) (body : A → M unit) :
  (∀ x, x ∈ l → always P (body x)) → always P (for_each l body).
Proof.
  induction l as [|x l IH]; intros Hbody; simpl.
  - apply always_ret.
  - apply always_bind.
    + apply Hbody, list_elem_of_here.
    + intros _. apply IH. intros y Hy. by apply Hbody, list_elem_of_further.
Qed.

Lemma always_for_fold {A S} (l : list A) (body : S → A → M S) :
  (∀ s x, always P (body s x)) → ∀ s, always P (for_fold l body s).
Proof.
  intros Hbody. induction l as [|x l IH]; intros s; simpl.
  - apply always_ret.
  - apply always_bind; [apply Hbody|]. intros s'. apply IH.
Qed.

Lemma always_try_except {A} (m : M A) (h : exn → M A) :
  always P m → (∀ e, always P (h e)) → always P (try_except m h).
Proof.
  intros Hm Hh w o w2 H. unfold try_except in H.
  destruct (m w) as [[a|e|] w1] eqn:E.
  - inversion H; subst. by eapply Hm.
  - eapply P_trans; [by eapply Hm|by eapply Hh].
  - inversion H; subst. by eapply Hm.
Qed.

Lemma always_remote {A} ev (answer : result A) :
  (∀ w, P w (log ev w)) → always P (remote ev answer).
Proof.
  intros Hev w o w' H. unfold remote in H. destruct answer; inversion H; apply Hev.
Qed.

Lemma always_print msg :
  (∀ w, P w (log (EvPrint msg) w)) → always P (print msg).
Proof. intros Hev w o w' H. inversion H. apply Hev. Qed.

Lemma always_local (ev : event) (op : filesystem → result filesystem) :
  (∀ w, P w (log ev w)) →
  (∀ (w : world) (f : filesystem), op (fs w) = inr f → P w (set_fs f (log ev w))) →
  always P (local ev op).
Proof.
  intros Hfail Hok w o w' H. unfold local in H.
  destruct (op (fs w)) as [e|f] eqn:E; inversion H; subst; [apply Hfail|by apply Hok].
Qed.
End Always.

Lemma always_weaken (P Q : world → world → Prop) {A} (m : M A) :
  (∀ w w', P w w' → Q w w') → always P m → always Q m.
Proof. intros HPQ Hm w o w' H. apply HPQ. by eapply Hm. Qed.

(* ===================================================================== *)
(** ** Errors of the search and of the identity service *)
(* ===================================================================== *)

Lemma authentication_error_exits_one_witness :
  main 1 ex_azure_denied (ex_args "A" "u") ex_world
  = (Exited 1,
     log (EvTraceback (ClientAuthenticationError "invalid client secret")) ex_world).
Proof.
  apply (authentication_error_exits_one 1 ex_azure_denied (ex_args "A" "u")
           (ClientAuthenticationError "invalid client secret") ex_world).
  reflexivity.
Defined.

(** X1: when the search call raises, [search_and_download] returns
    normally: the exception is printed as the error message, no hit is
    scanned, nothing is listed, retrieved, created or written. *)
Theorem search_error_reported fuel self folder_name web_url w e :
  search_query_post (graph_client self) (search_request folder_name) = inl e →
  search_and_download fuel self folder_name web_url w
  = (Ok tt, emit [EvSearch (search_request folder_name);
                  EvPrint (error_message e)] w).
Proof.
  intros H. unfold search_and_download, try_except, bind, remote. rewrite H.
  unfold print, log. by rewrite emit_emit.
Qed.

Lemma search_error_reported_witness :
  search_and_download 1 ex_self_down "A" "u" ex_world
  = (Ok tt, emit [EvSearch (search_request "A");
                  EvPrint (error_message (ODataError "service unavailable"))]
              ex_world).
Proof.
  apply (search_error_reported 1 ex_self_down "A" "u" ex_world
           (ODataError "service unavailable")).
  reflexivity.
Defined.

(** X2: [search_and_download] never ends with an exception, whatever the
    search, the listings, the content retrieval and the file system do. *)
Theorem search_and_download_never_raises fuel self folder_name web_url w e :
  fst (search_and_download fuel self folder_name web_url w) ≠ Raise e.
Proof.
  unfold search_and_download, try_except.
  match goal with |- context [bind ?m ?k w] => destruct (bind m k w) as [[[]|e'|] w'] end;
    simpl; discriminate.
Qed.

(* ===================================================================== *)
(** ** download_file *)
(* ===================================================================== *)


Lemma path_join_not_nil (dir : path) (n : string) : path_join dir n ≠ [].
Proof. unfold path_join. by destruct dir. Qed.









Lemma makedirs_from_over_file rest : ∀ pre (f : filesystem) s c,
  makedirs_from pre rest f = inr f →
  f !! (pre ++ rest ++ [s]) = Some (File c) →
  makedirs_from pre (rest ++ [s]) f = inl (FileExistsError (pre ++ rest ++ [s])).
Proof.
  induction rest as [|a rest IH]; intros pre f s c Hdirs Hfile; simpl in *.
  - by rewrite Hfile.
  - destruct (f !! (pre ++ [a])) as [[|c0]|] eqn:E.
    + rewrite (IH (pre ++ [a]) f s c Hdirs); by rewrite <- app_assoc.
    + by destruct rest.
    + apply makedirs_from_subseteq in Hdirs.
      pose proof (lookup_weaken _ _ (pre ++ [a]) Dir (lookup_insert_eq _ _ _) Hdirs).
      congruence.
Qed.

(** X6: a listed folder whose name is taken by a regular file in a target
    directory that exists: [os.makedirs] raises FileExistsError although
    [exist_ok] is set, the folder is not listed and nothing changes. *)
Theorem folder_over_file self recurse drive_id parent_directory item c w :
  folder item = true →
  os_makedirs parent_directory (fs w) = inr (fs w) →
  fs w !! path_join parent_directory (name item) = Some (File c) →
  download_item self recurse drive_id parent_directory item w
  = (Raise (FileExistsError (path_join parent_directory (name item))),
     log (EvMakedirs (path_join parent_directory (name item))) w).
Proof.
  intros Hfolder Hdir Hfile. unfold download_item. rewrite Hfolder.
  unfold bind, makedirs, local, os_makedirs, path_join in *.
  by rewrite (makedirs_from_over_file _ _ _ _ c Hdir Hfile).
Qed.

Lemma folder_over_file_witness :
  download_item (ex_self []) (download_folder 1 (ex_self [])) "d" [] ex_B ex_world_clash
  = (Raise (FileExistsError ["B"]), log (EvMakedirs ["B"]) ex_world_clash).
Proof.
  apply (folder_over_file (ex_self []) (download_folder 1 (ex_self [])) "d" [] ex_B
           [Byte.x09] ex_world_clash).
  - reflexivity.
  - reflexivity.
  - reflexivity.
Defined.

(* ===================================================================== *)
(** ** What a download records *)
(* ===================================================================== *)

Lemma emits_refl Q w : emits Q w w.
Proof. exists []. split; [by rewrite app_nil_r|constructor]. Qed.

Lemma emits_trans Q w1 w2 w3 : emits Q w1 w2 → emits Q w2 w3 → emits Q w1 w3.
Proof.
  intros (t1 & H1 & Q1) (t2 & H2 & Q2). exists (t1 ++ t2). split.
  - by rewrite H2, H1, app_assoc.
  - by apply Forall_app.
Qed.

Lemma emits_log (Q : event → Prop) ev w : Q ev → emits Q w (log ev w).
Proof. intros H. exists [ev]. split; [done|by constructor]. Qed.

Lemma emits_local (Q : event → Prop) (ev : event) (f : filesystem) (w : world) :
  Q ev → emits Q w (set_fs f (log ev w)).
Proof. intros H. exists [ev]. split; [done|by constructor]. Qed.

Lemma emits_weaken (Q Q' : event → Prop) w w' :
  (∀ ev, Q ev → Q' ev) → emits Q w w' → emits Q' w w'.
Proof.
  intros HQ (t & Ht & Hall). exists t. split; [done|].
  eapply Forall_impl; [exact Hall|exact HQ].
Qed.

Section Touches.
Variables (self : OneDriveDownloader) (d : string).

Lemma touches_deeper i dir items sub ev :
  children_get (graph_client self) d i = inr items →
  sub ∈ items →
  folder sub = true →
  touches self d (id sub) (path_join dir (name sub)) ev →
  touches self d i dir ev.
Proof.
  intros Hitems Hsub Hfolder Hev. destruct Hev.
  - eapply touches_listing; [by eapply listed_here|done].
  - eapply touches_listing; [by eapply listed_deeper|done].
  - eapply touches_makedirs; [by eapply listed_deeper|done].
  - eapply touches_content; [by eapply listed_deeper|done|done].
  - eapply touches_write; [by eapply listed_deeper|done|done|done].
  - apply touches_print.
Qed.

Lemma download_file_touches i dir item dir' :
  listed self d i dir item dir' → folder item = false → file item = true →
  always (emits (touches self d i dir))
    (download_file self d (id item) (name item) dir').
Proof.
  intros Hl Hfolder Hfile w o w' H.
  unfold download_file, bind, remote, write_file, local, print in H.
  destruct (content_get (graph_client self) d (id item)) as [e|c] eqn:Hc.
  - inversion H; subst. apply emits_log. by eapply touches_content.
  - simpl in H.
    assert (Hcontent : emits (touches self d i dir) w (log (EvContent d (id item)) w))
      by (apply emits_log; by eapply touches_content).
    assert (Hwrite : touches self d i dir (EvWrite (path_join dir' (name item)) c))
      by (by eapply touches_write).
    destruct (open_wb_write _ c _) as [e|f]; inversion H; subst.
    + eapply emits_trans; [exact Hcontent|]. by apply emits_log.
    + eapply emits_trans; [exact Hcontent|].
      eapply emits_trans; [by apply emits_local|].
      apply emits_log, touches_print.
Qed.

Lemma download_item_touches recurse i dir items item :
  (∀ i' dir', always (emits (touches self d i' dir')) (recurse d i' dir')) →
  children_get (graph_client self) d i = inr items →
  item ∈ items →
  always (emits (touches self d i dir)) (download_item self recurse d dir item).
Proof.
  intros Hrec Hitems Hitem. unfold download_item.
  destruct (folder item) eqn:Hfolder; [|destruct (file item) eqn:Hfile].
  - apply always_bind; [apply emits_trans| |].
    + assert (Hmk : touches self d i dir (EvMakedirs (path_join dir (name item))))
        by (eapply touches_makedirs; [by eapply listed_here|done]).
      apply always_local; intros; [by apply emits_log|by apply emits_local].
    + intros _. eapply always_weaken; [|apply Hrec].
      intros w w'. apply emits_weaken. intros ev. by eapply touches_deeper.
  - apply download_file_touches; [by eapply listed_here|done|done].
  - apply always_ret, emits_refl.
Qed.

Lemma download_folder_touches fuel : ∀ i dir,
  always (emits (touches self d i dir)) (download_folder fuel self d i dir).
Proof.
  induction fuel as [|fuel IH]; intros i dir; simpl.
  - apply always_out_of_fuel, emits_refl.
  - intros w o w' H. unfold bind at 1, remote in H.
    destruct (children_get (graph_client self) d i) as [e|items] eqn:Hitems.
    + inversion H; subst. apply emits_log, touches_root.
    + eapply emits_trans; [apply emits_log, touches_root|].
      revert H. apply always_for_each; [apply emits_refl|apply emits_trans|].
      intros item Hitem. by eapply download_item_touches.
Qed.

(** Where a listed item is mirrored lies in or below the directory the
    download started in. *)
Lemma listed_below i dir item dir' :
  listed self d i dir item dir' → ∃ q, dir' = dir ++ q.
Proof.
  induction 1 as [i dir items item _ _|i dir items sub item dir' _ _ _ _ [q ->]].
  - exists []. by rewrite app_nil_r.
  - exists (name sub :: q). unfold path_join. by rewrite <- app_assoc.
Qed.
End Touches.

(** X7: whatever its outcome, a download of folder [i] into [dir] records
    nothing but the listing of [i] and of folders listed below it, the
    creation of the mirrored directory of a listed folder, the retrieval of
    a listed file, the write of the retrieved content to the mirrored path
    of that file, and prints. *)
Theorem download_touches_only_listed
    fuel self drive_id folder_item_id parent_directory w :
  emits (touches self drive_id folder_item_id parent_directory) w
    (snd (download_folder fuel self drive_id folder_item_id parent_directory w)).
Proof.
  destruct (download_folder fuel self drive_id folder_item_id parent_directory w)
    as [o w'] eqn:H.
  by eapply download_folder_touches.
Qed.

Lemma scan_events_no_search folder_name web_url l :
  Forall (λ ev, ∀ r, ev ≠ EvSearch r) (scan_events folder_name web_url l).
Proof.
  induction l as [|hit l IH]; unfold scan_events; simpl.
  - constructor.
  - constructor; [done|]. apply Forall_app. split; [|exact IH].
    destruct (hit_matches folder_name web_url hit); by repeat constructor.
Qed.

Lemma touches_no_search self d i dir ev :
  touches self d i dir ev → ∀ r, ev ≠ EvSearch r.
Proof. by destruct 1. Qed.

(** X9: whatever its outcome, a run of [search_and_download] sends exactly
    one search request, before anything else: region IND, the folder name
    as query string, the window of the first 25 hits.  No further page of
    hits is asked for. *)
Theorem one_search_per_run fuel self folder_name web_url w :
  ∃ t, trace (snd (search_and_download fuel self folder_name web_url w))
       = trace w ++ EvSearch {| region := "IND"; query_string := folder_name;
                                from_ := 0; size := 25 |} :: t
       ∧ Forall (λ ev, ∀ r, ev ≠ EvSearch r) t.
Proof.
  fold (search_request folder_name).
  destruct (search_query_post (graph_client self) (search_request folder_name))
    as [e|value] eqn:Hsearch.
  - exists [EvPrint (error_message e)]. split; [|by repeat constructor].
    unfold search_and_download, try_except, bind, remote. rewrite Hsearch.
    simpl. by rewrite <- app_assoc.
  - destruct (select_match folder_name web_url (flatten_hits value))
      as [folder_item_id drive_id] eqn:Hsel.
    destruct (truthy folder_item_id && truthy drive_id) eqn:Htruthy.
    + destruct folder_item_id as [i|]; [|done]. destruct drive_id as [d|];
        [|by rewrite andb_false_r in Htruthy].
      rewrite (search_and_download_found fuel self folder_name web_url value
                 Hsearch w i d Hsel Htruthy).
      destruct (try_except _ _ _) as [o w'] eqn:Hrun.
      assert (Hemits : emits (λ ev, ∀ r, ev ≠ EvSearch r)
                         (after_scan folder_name web_url value w) w').
      { revert Hrun. apply always_try_except.
        - apply emits_trans.
        - eapply always_weaken; [|apply download_folder_touches].
          intros w1 w2. apply emits_weaken. apply touches_no_search.
        - intros e. apply always_print. intros w1. by apply emits_log. }
      destruct Hemits as (t & Ht & Hall).
      exists (scan_events folder_name web_url (flatten_hits value) ++ t). split.
      * simpl. rewrite Ht. simpl. by rewrite <- app_assoc.
      * apply Forall_app. split; [apply scan_events_no_search|done].
    + rewrite (search_and_download_not_found fuel self folder_name web_url value
                 Hsearch w) by (by rewrite Hsel).
      exists (scan_events folder_name web_url (flatten_hits value)
              ++ [EvPrint (not_found_message folder_name web_url)]). split.
      * simpl. by rewrite <- app_assoc.
      * apply Forall_app. split; [apply scan_events_no_search|by repeat constructor].
Qed.

(* ===================================================================== *)
(** ** What a download that returns normally leaves behind *)
(* ===================================================================== *)

Lemma for_each_inv_ok {A} (l1 l2 : list A) (body : A → M unit) x w w' :
  for_each (l1 ++ x :: l2) body w = (Ok tt, w') →
  ∃ w1 w2, for_each l1 body w = (Ok tt, w1)
           ∧ body x w1 = (Ok tt, w2)
           ∧ for_each l2 body w2 = (Ok tt, w').
Proof.
  rewrite for_each_app. intros ([] & w1 & H1 & H)%bind_inv_ok. simpl in H.
  apply bind_inv_ok in H as ([] & w2 & H2 & H3). by exists w1, w2.
Qed.

Lemma makedirs_from_is_dir rest : ∀ pre (f f' : filesystem),
  makedirs_from pre rest f = inr f' → rest ≠ [] →
  f' !! (pre ++ rest) = Some Dir.
Proof.
  induction rest as [|s rest IH]; intros pre f f' H Hne; [done|]. simpl in H.
  destruct rest as [|s' rest].
  - simpl in H. destruct (f !! (pre ++ [s])) as [[|c]|] eqn:E; inversion H; subst.
    + done.
    + apply lookup_insert_eq.
  - replace (pre ++ s :: s' :: rest) with ((pre ++ [s]) ++ s' :: rest)
      by (by rewrite <- app_assoc).
    destruct (f !! (pre ++ [s])) as [[|c]|] eqn:E; try done; by eapply IH.
Qed.

Lemma os_makedirs_is_dir (p : path) (f f' : filesystem) :
  os_makedirs p f = inr f' → p ≠ [] → f' !! p = Some Dir.
Proof. intros H Hp. by apply (makedirs_from_is_dir p [] f f'). Qed.

Lemma elem_written t p c : EvWrite p c ∈ t → is_Some (written t p).
Proof.
  induction t as [|ev t IH]; [by intros ?%elem_of_nil|].
  intros [Heq|Hin]%elem_of_cons; simpl; [subst ev|].
  - destruct (written t p); [done|]. by rewrite decide_True.
  - destruct (IH Hin) as [c' ->]. done.
Qed.

Section Mirror.
Variables (self : OneDriveDownloader) (d : string).

Lemma download_items_evolved fuel dir l :
  respects (evolved (graph_client self))
    (for_each l (download_item self (download_folder fuel self) d dir)).
Proof.
  apply respects_for_each; [apply evolved_refl|apply evolved_trans|].
  intros item.
  apply (respects_download_item self _ (evolved_refl self) (evolved_trans self)
           (evolved_log self) (evolved_makedirs self) (evolved_write self)).
  intros d' i' p'. apply download_folder_evolved.
Qed.

Lemma evolved_extends w w' :
  evolved (graph_client self) w w' → ∃ t, trace w' = trace w ++ t.
Proof. intros (t & Ht & _). by exists t. Qed.

Lemma evolved_keeps_dir w w' (p : path) :
  evolved (graph_client self) w w' → fs w !! p = Some Dir → fs w' !! p = Some Dir.
Proof. intros (t & _ & _ & Hd & _). apply Hd. Qed.

(** An event recorded between [w1] and [w2] is recorded between any earlier
    and any later world. *)
Lemma recorded_between ev w w1 w2 w3 :
  (∃ t, trace w1 = trace w ++ t) →
  (∃ t, trace w2 = trace w1 ++ t ∧ ev ∈ t) →
  (∃ t, trace w3 = trace w2 ++ t) →
  ∃ t, trace w3 = trace w ++ t ∧ ev ∈ t.
Proof.
  intros [t1 H1] (t2 & H2 & Hin) [t3 H3]. exists (t1 ++ t2 ++ t3). split.
  - by rewrite H3, H2, H1, <- !app_assoc.
  - apply elem_of_app. right. apply elem_of_app. by left.
Qed.

(** Every listed folder has had its directory created and every listed
    file has been written when the download returns normally. *)
Lemma download_folder_complete i dir item dir' :
  listed self d i dir item dir' →
  ∀ fuel w w',
    download_folder fuel self d i dir w = (Ok tt, w') →
    (folder item = true → fs w' !! path_join dir' (name item) = Some Dir)
    ∧ (folder item = false → file item = true →
       ∃ c t, trace w' = trace w ++ t
              ∧ EvWrite (path_join dir' (name item)) c ∈ t).
Proof.
  induction 1 as [i dir items item Hitems Hitem
                 |i dir items sub item dir' Hitems Hsub Hfolder Hl IH];
    intros [|fuel] w w' H; try (by inversion H);
    rewrite (download_folder_unfold _ _ _ _ _ _ _ Hitems) in H.
  - apply list_elem_of_split in Hitem as (l1 & l2 & ->).
    apply for_each_inv_ok in H as (w1 & w2 & H1 & H2 & H3).
    pose proof (download_items_evolved _ _ _ _ _ _ H1) as E1.
    pose proof (download_items_evolved _ _ _ _ _ _ H3) as E3.
    unfold download_item in H2. split.
    + intros Hfolder. rewrite Hfolder in H2.
      apply bind_inv_ok in H2 as ([] & w1' & Hmk & Hrec).
      eapply evolved_keeps_dir; [exact E3|].
      eapply evolved_keeps_dir; [by eapply download_folder_evolved|].
      unfold makedirs, local in Hmk.
      destruct (os_makedirs _ (fs w1)) as [e|f] eqn:Emk; inversion Hmk; subst.
      simpl. eapply os_makedirs_is_dir; [exact Emk|apply path_join_not_nil].
    + intros Hfolder Hfile. rewrite Hfolder, Hfile in H2.
      unfold download_file, bind, remote, write_file, local, print in H2.
      destruct (content_get _ _ _) as [e|c]; [done|]. simpl in H2.
      destruct (open_wb_write _ c _) as [e|f]; inversion H2 as [Hw2].
      exists c. apply (recorded_between _ w w1 w2 w').
      * destruct (evolved_extends _ _ E1) as [t1 Ht1]. exists (EvChildren d i :: t1).
        rewrite Ht1. simpl. by rewrite <- app_assoc.
      * exists [EvContent d (id item); EvWrite (path_join dir (name item)) c;
                EvPrint ("Downloaded file: " +:+ name item)].
        split; [rewrite <- Hw2; simpl; by rewrite <- !app_assoc|].
        apply list_elem_of_further, list_elem_of_here.
      * by apply evolved_extends.
  - apply list_elem_of_split in Hsub as (l1 & l2 & ->).
    apply for_each_inv_ok in H as (w1 & w2 & H1 & H2 & H3).
    pose proof (download_items_evolved _ _ _ _ _ _ H1) as E1.
    pose proof (download_items_evolved _ _ _ _ _ _ H3) as E3.
    unfold download_item in H2. rewrite Hfolder in H2.
    apply bind_inv_ok in H2 as ([] & w1' & Hmk & Hrec).
    destruct (IH _ _ _ Hrec) as [IHdir IHfile]. split.
    + intros Hf. eapply evolved_keeps_dir; [exact E3|by apply IHdir].
    + intros Hf1 Hf2. destruct (IHfile Hf1 Hf2) as (c & t & Ht & Hin).
      destruct (evolved_extends _ _ E1) as [t1 Ht1].
      destruct (evolved_extends _ _ E3) as [t3 Ht3].
      unfold makedirs, local in Hmk.
      exists c, (EvChildren d i :: t1
                 ++ [EvMakedirs (path_join dir (name sub))] ++ t ++ t3). split.
      * destruct (os_makedirs _ (fs w1)) as [e|f]; inversion Hmk; subst.
        rewrite Ht3, Ht. simpl. rewrite Ht1. simpl. by rewrite <- !app_assoc.
      * apply list_elem_of_further, elem_of_app. right.
        apply list_elem_of_further, elem_of_app. by left.
Qed.
End Mirror.

Lemma ex_children_plain (search : SearchRequest → result (list SearchResponse))
    (content : string → string → result bytes) :
  plain_listings {| search_query_post := search;
                    children_get := ex_children;
                    content_get := content |}.
Proof.
  intros d i items item. simpl. unfold ex_children.
  repeat case_match; intros Hitems; inversion Hitems; subst;
    rewrite ?elem_of_cons, elem_of_nil; intros Hin;
    repeat destruct Hin as [Hin|Hin]; subst; done.
Qed.

(** C7: a download with [self1] returned normally and left the world [w1];
    the download is run again there with [self2], whose client lists the
    same children, all with plain names, and can deliver content wherever
    the first one could.  Creating a directory that exists is not an error
    and changes nothing; the second run returns normally too; it adds no
    entry to the file system and changes no kind; every path it writes
    holds, at the end, the content it wrote there last, and that content is
    what its own client delivered, on the drive of the download, for a
    listed file joined to that path; a file it does not write keeps its
    content; it writes every path the first run wrote; and every listed
    file has, at its joined path, such content: its own latest content
    when no other listed file is joined to the same path. *)
Theorem rerun_overwrites
    fuel self1 self2 drive_id folder_item_id parent_directory w w1 :
  (∀ d i, children_get (graph_client self2) d i
          = children_get (graph_client self1) d i) →
  (∀ d i c, content_get (graph_client self1) d i = inr c →
            ∃ c', content_get (graph_client self2) d i = inr c') →
  plain_listings (graph_client self2) →
  download_folder fuel self1 drive_id folder_item_id parent_directory w
    = (Ok tt, w1) →
  (∀ (p : path) (f f' : filesystem),
     os_makedirs p f = inr f' → os_makedirs p f' = inr f')
  ∧ ∃ w2 t,
      download_folder fuel self2 drive_id folder_item_id parent_directory w1
        = (Ok tt, w2)
      ∧ trace w2 = trace w1 ++ t
      ∧ kinds_le (fs w2) (fs w1)
      ∧ (∀ p c, written t p = Some c →
                fs w2 !! p = Some (File c)
                ∧ ∃ item dir',
                    listed self2 drive_id folder_item_id parent_directory item dir'
                    ∧ folder item = false ∧ file item = true
                    ∧ path_join dir' (name item) = p
                    ∧ content_get (graph_client self2) drive_id (id item) = inr c)
      ∧ (∀ p c, written t p = None → fs w1 !! p = Some (File c) →
                fs w2 !! p = Some (File c))
      ∧ (∀ t1 p, trace w1 = trace w ++ t1 →
                 is_Some (written t1 p) → is_Some (written t p))
      ∧ (∀ item dir',
           listed self2 drive_id folder_item_id parent_directory item dir' →
           folder item = false → file item = true →
           ∃ c, fs w2 !! path_join dir' (name item) = Some (File c)
                ∧ written t (path_join dir' (name item)) = Some c
                ∧ ((∀ item2 dir2,
                      listed self2 drive_id folder_item_id parent_directory
                        item2 dir2 →
                      folder item2 = false → file item2 = true →
                      path_join dir2 (name item2) = path_join dir' (name item) →
                      id item2 = id item) →
                   content_get (graph_client self2) drive_id (id item) = inr c)).
Proof.
  intros Hchildren Hcontent _ Hrun1.
  split; [apply os_makedirs_idempotent|].
  destruct (reruns_download_folder self1 self2 Hchildren Hcontent fuel
              drive_id folder_item_id parent_directory w w1 w1 Hrun1)
    as (w2 & Hrun2 & _ & Hback & t1 & t2 & Ht1 & Ht2 & Hshape);
    [apply kinds_le_refl|].
  destruct (download_folder_evolved self2 fuel _ _ _ _ _ _ Hrun2)
    as (t & Ht & _ & _ & Hlast).
  assert (t = t2) as -> by (rewrite Ht in Ht2; by apply app_inv_head in Ht2).
  destruct (download_folder_touches self2 drive_id fuel _ _ _ _ _ Hrun2)
    as (t & Ht' & Hall).
  assert (t = t2) as -> by (rewrite Ht in Ht'; by apply app_inv_head in Ht').
  rewrite Forall_forall in Hall.
  assert (Hsource : ∀ p c, written t2 p = Some c →
            fs w2 !! p = Some (File c)
            ∧ ∃ item dir',
                listed self2 drive_id folder_item_id parent_directory item dir'
                ∧ folder item = false ∧ file item = true
                ∧ path_join dir' (name item) = p
                ∧ content_get (graph_client self2) drive_id (id item) = inr c).
  { intros p c Hp. split.
    - specialize (Hlast p). by rewrite Hp in Hlast.
    - pose proof (Hall _ (written_elem _ _ _ Hp)) as Htouch.
      inversion Htouch; subst. by eexists _, _. }
  exists w2, t2. split; [done|]. split; [done|]. split; [done|].
  split; [exact Hsource|]. split; [|split].
  - intros p c Hp Hc. specialize (Hlast p). rewrite Hp in Hlast. by apply Hlast.
  - intros t1' p Ht1' Hw. rewrite Ht1 in Ht1'. apply app_inv_head in Ht1'.
    subst t1'. by eapply same_shape_written.
  - intros item dir' Hl Hfolder Hfile.
    destruct (download_folder_complete self2 drive_id _ _ _ _ Hl fuel w1 w2 Hrun2)
      as [_ Hwrote].
    destruct (Hwrote Hfolder Hfile) as (c0 & t & Ht0 & Hin).
    assert (t = t2) as -> by (rewrite Ht in Ht0; by apply app_inv_head in Ht0).
    destruct (elem_written _ _ _ Hin) as [c Hc].
    destruct (Hsource _ _ Hc) as (Hfs & item2 & dir2 & Hl2 & Hf1 & Hf2 & Hp & Hc2).
    exists c. split; [done|]. split; [done|].
    intros Hunique. by rewrite <- (Hunique item2 dir2 Hl2 Hf1 Hf2 Hp).
Qed.

Lemma rerun_overwrites_witness :
  ∃ w2 t,
    download_folder 2 ex_self_later "d" "A" ["A"] ex_world_A1 = (Ok tt, w2)
    ∧ trace w2 = trace ex_world_A1 ++ t
    ∧ kinds_le (fs w2) (fs ex_world_A1)
    ∧ (∀ p c, written t p = Some c →
              fs w2 !! p = Some (File c)
              ∧ ∃ item dir',
                  listed ex_self_later "d" "A" ["A"] item dir'
                  ∧ folder item = false ∧ file item = true
                  ∧ path_join dir' (name item) = p
                  ∧ content_get (graph_client ex_self_later) "d" (id item) = inr c)
    ∧ (∀ p c, written t p = None → fs ex_world_A1 !! p = Some (File c) →
              fs w2 !! p = Some (File c))
    ∧ (∀ t1 p, trace ex_world_A1 = trace ex_world_A ++ t1 →
               is_Some (written t1 p) → is_Some (written t p))
    ∧ (∀ item dir',
         listed ex_self_later "d" "A" ["A"] item dir' →
         folder item = false → file item = true →
         ∃ c, fs w2 !! path_join dir' (name item) = Some (File c)
              ∧ written t (path_join dir' (name item)) = Some c
              ∧ ((∀ item2 dir2,
                    listed ex_self_later "d" "A" ["A"] item2 dir2 →
                    folder item2 = false → file item2 = true →
                    path_join dir2 (name item2) = path_join dir' (name item) →
                    id item2 = id item) →
                 content_get (graph_client ex_self_later) "d" (id item) = inr c)).
Proof.
  refine (proj2 (rerun_overwrites 2 (ex_self [ex_hit_A]) ex_self_later "d" "A" ["A"]
                   ex_world_A ex_world_A1 _ _ _ _)).
  - reflexivity.
  - intros d i c. simpl. unfold ex_content, ex_content_later.
    destruct (String.eqb i "f1"); [by eexists|].
    destruct (String.eqb i "f2"); [by eexists|done].
  - apply ex_children_plain.
  - vm_compute. reflexivity.
Defined.

(** The second run at work: after the first download of A, the remote
    files have changed; the second download leaves the new content in both
    files and the same directories. *)
Lemma rerun_example :
  ∃ w2, download_folder 2 ex_self_later "d" "A" ["A"] ex_world_A1 = (Ok tt, w2)
        ∧ fs w2 !! ["A"; "f1.txt"] = Some (File [Byte.x03])
        ∧ fs w2 !! ["A"; "B"; "f2.txt"] = Some (File [Byte.x04; Byte.x05])
        ∧ dom (fs w2) = dom (fs ex_world_A1).
Proof.
  eexists. split; [vm_compute; reflexivity|]. repeat split; reflexivity.
Qed.

(** X10: when a download returns normally, every folder listed anywhere in
    the remote subtree, an empty one too, has its directory at the mirrored
    local path. *)
Theorem listed_folders_created
    fuel self drive_id folder_item_id parent_directory w w' item dir' :
  download_folder fuel self drive_id folder_item_id parent_directory w
    = (Ok tt, w') →
  listed self drive_id folder_item_id parent_directory item dir' →
  folder item = true →
  fs w' !! path_join dir' (name item) = Some Dir.
Proof.
  intros Hrun Hl Hfolder.
  by apply (download_folder_complete self drive_id _ _ _ _ Hl fuel w w' Hrun).
Qed.

Lemma listed_folders_created_witness :
  fs ex_world_A1 !! path_join ["A"] (name ex_B) = Some Dir.
Proof.
  apply (listed_folders_created 2 (ex_self [ex_hit_A]) "d" "A" ["A"]
           ex_world_A ex_world_A1 ex_B ["A"]).
  - vm_compute. reflexivity.
  - apply (listed_here _ _ _ _ [ex_f1; ex_B]); [reflexivity|].
    apply list_elem_of_further, list_elem_of_here.
  - reflexivity.
Defined.

(** X11: the listings hold plain names only.  When a download returns
    normally, the mirrored local path of every file listed anywhere in the
    remote subtree is a regular file, and its content is what the client
    delivered for a listed file with that mirrored path: for the file
    itself when no other listed file is mirrored to the same path. *)
Theorem listed_files_mirrored
    fuel self drive_id folder_item_id parent_directory w w' item dir' :
  plain_listings (graph_client self) →
  download_folder fuel self drive_id folder_item_id parent_directory w
    = (Ok tt, w') →
  listed self drive_id folder_item_id parent_directory item dir' →
  folder item = false →
  file item = true →
  ∃ c, fs w' !! path_join dir' (name item) = Some (File c)
       ∧ (∃ item2 dir2,
            listed self drive_id folder_item_id parent_directory item2 dir2
            ∧ folder item2 = false ∧ file item2 = true
            ∧ path_join dir2 (name item2) = path_join dir' (name item)
            ∧ content_get (graph_client self) drive_id (id item2) = inr c)
       ∧ ((∀ item2 dir2,
             listed self drive_id folder_item_id parent_directory item2 dir2 →
             folder item2 = false → file item2 = true →
             path_join dir2 (name item2) = path_join dir' (name item) →
             id item2 = id item) →
          content_get (graph_client self) drive_id (id item) = inr c).
Proof.
  intros _ Hrun Hl Hfolder Hfile.
  destruct (download_folder_complete self drive_id _ _ _ _ Hl fuel w w' Hrun)
    as [_ Hwrote].
  destruct (Hwrote Hfolder Hfile) as (c0 & t & Ht & Hin).
  destruct (download_folder_evolved self fuel _ _ _ _ _ _ Hrun)
    as (t' & Ht' & _ & _ & Hlast).
  assert (t' = t) as -> by (rewrite Ht in Ht'; by apply app_inv_head in Ht').
  destruct (download_folder_touches self drive_id fuel _ _ _ _ _ Hrun)
    as (t'' & Ht'' & Hall).
  assert (t'' = t) as -> by (rewrite Ht in Ht''; by apply app_inv_head in Ht'').
  destruct (elem_written _ _ _ Hin) as [c Hc].
  specialize (Hlast (path_join dir' (name item))). rewrite Hc in Hlast.
  rewrite Forall_forall in Hall.
  pose proof (Hall _ (written_elem _ _ _ Hc)) as Htouch.
  assert (Hsrc : ∃ item2 dir2,
             listed self drive_id folder_item_id parent_directory item2 dir2
             ∧ folder item2 = false ∧ file item2 = true
             ∧ path_join dir2 (name item2) = path_join dir' (name item)
             ∧ content_get (graph_client self) drive_id (id item2) = inr c).
  { inversion Htouch; subst. by eexists _, _. }
  exists c. split; [done|]. split; [done|].
  intros Hunique. destruct Hsrc as (item2 & dir2 & Hl2 & Hf1 & Hf2 & Hp & Hc2).
  by rewrite <- (Hunique item2 dir2 Hl2 Hf1 Hf2 Hp).
Qed.

Lemma listed_files_mirrored_witness :
  ∃ c, fs ex_world_A1 !! path_join ["A"; "B"] (name ex_f2) = Some (File c)
       ∧ (∃ item2 dir2,
            listed (ex_self [ex_hit_A]) "d" "A" ["A"] item2 dir2
            ∧ folder item2 = false ∧ file item2 = true
            ∧ path_join dir2 (name item2) = path_join ["A"; "B"] (name ex_f2)
            ∧ content_get (graph_client (ex_self [ex_hit_A])) "d" (id item2) = inr c)
       ∧ ((∀ item2 dir2,
             listed (ex_self [ex_hit_A]) "d" "A" ["A"] item2 dir2 →
             folder item2 = false → file item2 = true →
             path_join dir2 (name item2) = path_join ["A"; "B"] (name ex_f2) →
             id item2 = id ex_f2) →
          content_get (graph_client (ex_self [ex_hit_A])) "d" (id ex_f2) = inr c).
Proof.
  apply (listed_files_mirrored 2 (ex_self [ex_hit_A]) "d" "A" ["A"]
           ex_world_A ex_world_A1 ex_f2 ["A"; "B"]).
  - apply ex_children_plain.
  - vm_compute. reflexivity.
  - apply (listed_deeper _ _ _ _ [ex_f1; ex_B] ex_B); [reflexivity| |reflexivity|].
    + apply list_elem_of_further, list_elem_of_here.
    + apply (listed_here _ _ _ _ [ex_f2]); [reflexivity|apply list_elem_of_here].
  - reflexivity.
  - reflexivity.
Defined.

(* ===================================================================== *)
(** ** What a download never does to the local file system *)
(* ===================================================================== *)

Lemma keeps_refl w : keeps w w.
Proof.
  split; [apply kinds_le_refl|]. exists []. split; [by rewrite app_nil_r|done].
Qed.

Lemma keeps_trans w1 w2 w3 : keeps w1 w2 → keeps w2 w3 → keeps w1 w3.
Proof.
  intros (Hk1 & t1 & Ht1 & Hf1) (Hk2 & t2 & Ht2 & Hf2).
  split; [by eapply kinds_le_trans|]. exists (t1 ++ t2).
  split; [by rewrite Ht2, Ht1, app_assoc|].
  intros p c Hp Hnot. apply Hf2.
  - apply Hf1; [done|]. intros c' Hin. apply (Hnot c'), elem_of_app. by left.
  - intros c' Hin. apply (Hnot c'), elem_of_app. by right.
Qed.

Lemma keeps_log ev w : keeps w (log ev w).
Proof. split; [apply kinds_le_refl|]. by exists [ev]. Qed.

Lemma keeps_makedirs (p : path) (w : world) (f : filesystem) :
  os_makedirs p (fs w) = inr f → keeps w (set_fs f (log (EvMakedirs p) w)).
Proof.
  intros H. split.
  - apply kinds_le_subseteq. by eapply makedirs_from_subseteq.
  - exists [EvMakedirs p]. split; [done|]. intros q c Hq _. simpl.
    by eapply os_makedirs_keeps.
Qed.

Lemma keeps_write (p : path) (c : bytes) (w : world) (f : filesystem) :
  open_wb_write p c (fs w) = inr f → keeps w (set_fs f (log (EvWrite p c) w)).
Proof.
  intros (_ & _ & Hnd & ->)%open_wb_write_inv. split.
  - by apply kinds_le_insert_file.
  - exists [EvWrite p c]. split; [done|]. intros q c0 Hq Hnot. simpl.
    rewrite lookup_insert_ne; [done|]. intros <-.
    apply (Hnot c), list_elem_of_here.
Qed.

Lemma download_file_keeps self drive_id file_item_id filename directory_path :
  always keeps (download_file self drive_id file_item_id filename directory_path).
Proof.
  unfold download_file.
  apply always_bind; [apply keeps_trans| |].
  - apply always_remote, keeps_log.
  - intros content. apply always_bind; [apply keeps_trans| |].
    + apply always_local; [apply keeps_log|apply keeps_write].
    + intros _. apply always_print, keeps_log.
Qed.

Lemma download_folder_keeps self fuel : ∀ drive_id folder_item_id parent_directory,
  always keeps (download_folder fuel self drive_id folder_item_id parent_directory).
Proof.
  induction fuel as [|fuel IH]; intros d i dir; simpl.
  - apply always_out_of_fuel, keeps_refl.
  - apply always_bind; [apply keeps_trans| |].
    + apply always_remote, keeps_log.
    + intros items. apply always_for_each; [apply keeps_refl|apply keeps_trans|].
      intros item _. unfold download_item.
      destruct (folder item); [|destruct (file item)].
      * apply always_bind; [apply keeps_trans| |].
        -- apply always_local; [apply keeps_log|apply keeps_makedirs].
        -- intros _. apply IH.
      * apply download_file_keeps.
      * apply always_ret, keeps_refl.
Qed.

(** X12: whatever its outcome, a download removes no entry of the local
    file system and changes the kind of none: what was a directory is a
    directory, what was a regular file is a regular file. *)
Theorem download_never_deletes fuel self drive_id folder_item_id parent_directory w :
  kinds_le (fs w)
    (fs (snd (download_folder fuel self drive_id folder_item_id parent_directory w))).
Proof.
  destruct (download_folder fuel self drive_id folder_item_id parent_directory w)
    as [o w'] eqn:H.
  by destruct (download_folder_keeps self fuel _ _ _ _ _ _ H).
Qed.



(* ===================================================================== *)
(** ** Where a download changes the local file system *)
(* ===================================================================== *)












